(** * Percepta: model registry and pipeline engine

  A shallow embedding of [core/modelRegistry.js] and [core/pipelineEngine.js]
  together with the properties of the orchestration core, followed by the
  code around it: [pipelines/imagePipeline.js], the key store and
  [validateConfig] of [core/config.js], [initialize] and [healthCheck] of the
  two Gemini models, and [registerModels] and [runAnalysis] of [app.js].

  Conventions of the embedding.
  - A JS [Map] whose iteration order is observed ([ModelRegistry.models]) is
    an association list in insertion order; [Map.set] on a present key
    updates the value in place and keeps the key's position.
  - A JS [Map] or object that is only looked up ([ModelRegistry.fallbacks],
    [PipelineResult.outputs], the [context] object) is a [gmap string _].
  - Models and progress callbacks are JS objects; they are elements of the
    types [Model] and [Callback], and what they do when called is given by
    the interface functions [analyze], [getCapabilities] and [invoke].
  - Everything outside the core (the network, the DOM, the clock) is a value
    of type [World] that is threaded through every call.  Thrown
    exceptions are the left summand of the result.
  - Collaborators act on the world only: while a model or an observer runs
    it does not call back into the registry or the engine, so the registry
    and the observer list are fixed for the duration of one engine call.
  - [await] is sequencing: one engine call runs to its end before the next
    operation on the registry or the engine. *)

From Stdlib Require Import ZArith String List Sorting.Sorted Sorting.Permutation.
From stdpp Require Import base decidable option list gmap strings.

Local Open Scope string_scope.
Local Open Scope list_scope.
Local Open Scope Z_scope.

(** ** JavaScript library functions used by the core *)

Module Js.

(** [Array.prototype.indexOf]: index of the first element strictly equal to
    [x], or [-1]. *)
Fixpoint indexOf_from {A} `{EqDecision A} (l : list A) (x : A) (k : Z) : Z :=
  match l with
  | [] => -1
  | y :: l' => if decide (y = x) then k else indexOf_from l' x (k + 1)
  end.

Definition indexOf {A} `{EqDecision A} (l : list A) (x : A) : Z :=
  indexOf_from l x 0.

(** [arr.splice(index, 1)] for [index >= 0]: removes the element at
    [index]; nothing is removed when [index] is past the end. *)
Definition splice1 {A} (index : Z) (l : list A) : list A :=
  delete (Z.to_nat index) l.

(** The idiom [i = arr.indexOf(x); if (i > -1) arr.splice(i, 1)]. *)
Definition remove_first {A} `{EqDecision A} (x : A) (l : list A) : list A :=
  let index := indexOf l x in
  if bool_decide (index > -1) then splice1 index l else l.

(** [Array.prototype.sort(comparefn)].  The sort is stable, so for a
    consistent comparator its result is the one of a stable insertion sort:
    [x] is placed before the first [y] with [comparefn x y <= 0]. *)
Fixpoint sort_insert {A} (comparefn : A -> A -> Z) (x : A) (l : list A) : list A :=
  match l with
  | [] => [x]
  | y :: l' =>
      if bool_decide (comparefn x y <= 0) then x :: y :: l'
      else y :: sort_insert comparefn x l'
  end.

Fixpoint sort {A} (comparefn : A -> A -> Z) (l : list A) : list A :=
  match l with
  | [] => []
  | x :: l' => sort_insert comparefn x (sort comparefn l')
  end.

(** A [Map] in insertion order. *)
Abbreviation Map V := (list (string * V)).

Fixpoint map_get {V} (m : Map V) (k : string) : option V :=
  match m with
  | [] => None
  | (k', v) :: m' => if decide (k' = k) then Some v else map_get m' k
  end.

Fixpoint map_set {V} (m : Map V) (k : string) (v : V) : Map V :=
  match m with
  | [] => [(k, v)]
  | (k', v') :: m' =>
      if decide (k' = k) then (k, v) :: m' else (k', v') :: map_set m' k v
  end.

Definition map_delete {V} (m : Map V) (k : string) : Map V :=
  filter (fun kv => kv.1 <> k) m.

Definition map_keys {V} (m : Map V) : list string := m.*1.

End Js.

(** ** Errors *)

(** A thrown value: a JS [Error] with its [message]. *)
Record Error : Type := mkError { message : string }.

#[global] Instance Error_eq_dec : EqDecision Error.
Proof. solve_decision. Defined.

(** ** Capability descriptors *)

Record Capabilities : Type := mkCapabilities {
  cap_type : string;
  cap_role : string;
  cap_priority : Z;
  cap_supports : list string
}.

(** ** The model registry ([core/modelRegistry.js]) *)

Section Registry.

Context {Model : Type}.
Variable getCapabilities : Model -> Capabilities.

(** The [options] argument of [register]; an absent (or [null]) field is
    [None]. *)
Record Options : Type := mkOptions {
  opt_priority : option Z;
  opt_fallbackFor : option string;
  opt_enabled : option bool
}.

Record Registration : Type := mkRegistration {
  model : Model;
  priority : Z;
  fallbackFor : option string;
  enabled : bool
}.

Record ModelRegistry : Type := mkModelRegistry {
  models : Js.Map Registration;
  fallbacks : gmap string (list string)
}.

(** [new ModelRegistry()] *)
Definition empty_registry : ModelRegistry :=
  {| models := []; fallbacks := ∅ |}.

(** [options.priority || 1]: [0] is falsy. *)
Definition priority_or_default (p : option Z) : Z :=
  match p with
  | Some v => if decide (v = 0) then 1 else v
  | None => 1
  end.

(** [options.fallbackFor || null]: the empty string is falsy. *)
Definition fallbackFor_or_null (f : option string) : option string :=
  match f with
  | Some s => if decide (s = "") then None else Some s
  | None => None
  end.

(** [options.enabled !== false] *)
Definition enabled_unless_false (e : option bool) : bool :=
  match e with
  | Some false => false
  | _ => true
  end.

Definition register (id : string) (m : Model) (options : Options)
    (this : ModelRegistry) : ModelRegistry :=
  let registration :=
    {| model := m;
       priority := priority_or_default (opt_priority options);
       fallbackFor := fallbackFor_or_null (opt_fallbackFor options);
       enabled := enabled_unless_false (opt_enabled options) |} in
  let models' := Js.map_set (models this) id registration in
  match fallbackFor registration with
  | Some primary =>
      let fallbacks' :=
        match fallbacks this !! primary with
        | Some _ => fallbacks this
        | None => <[primary := []]> (fallbacks this)
        end in
      {| models := models';
         fallbacks := <[primary := default [] (fallbacks' !! primary) ++ [id]]> fallbacks' |}
  | None => {| models := models'; fallbacks := fallbacks this |}
  end.

Definition unregister (id : string) (this : ModelRegistry) : ModelRegistry :=
  {| models := Js.map_delete (models this) id;
     fallbacks := Js.remove_first id <$> fallbacks this |}.

(** [registration?.enabled ? registration.model : null] *)
Definition get (this : ModelRegistry) (id : string) : option Model :=
  match Js.map_get (models this) id with
  | Some registration =>
      if enabled registration then Some (model registration) else None
  | None => None
  end.

(** The argument [{ type, role }] of [getByCapability]. *)
Record Filter : Type := mkFilter {
  flt_type : option string;
  flt_role : option string
}.

(** [!x] for a string-or-undefined [x]. *)
Definition falsy (x : option string) : bool :=
  match x with
  | Some s => bool_decide (s = "")
  | None => true
  end.

(** [!x || v === x] *)
Definition field_match (x : option string) (v : string) : bool :=
  falsy x || bool_decide (x = Some v).

Record Match : Type := mkMatch {
  m_id : string;
  m_model : Model;
  m_priority : Z
}.

Fixpoint collect_matches (f : Filter) (entries : Js.Map Registration) : list Match :=
  match entries with
  | [] => []
  | (id, registration) :: rest =>
      if negb (enabled registration) then collect_matches f rest
      else
        let caps := getCapabilities (model registration) in
        let typeMatch := field_match (flt_type f) (cap_type caps) in
        let roleMatch := field_match (flt_role f) (cap_role caps) in
        if typeMatch && roleMatch
        then {| m_id := id; m_model := model registration;
                m_priority := priority registration |} :: collect_matches f rest
        else collect_matches f rest
  end.

Definition by_priority (a b : Match) : Z := m_priority b - m_priority a.

Definition getByCapability (this : ModelRegistry) (f : Filter) : list Match :=
  Js.sort by_priority (collect_matches f (models this)).

(** The ids recorded as fallbacks of [id]: [this.fallbacks.get(id) || []]. *)
Definition chain (this : ModelRegistry) (id : string) : list string :=
  default [] (fallbacks this !! id).

Definition getFallbacks (this : ModelRegistry) (id : string) : list Model :=
  let fallbackIds := chain this id in
  omap (get this) fallbackIds.

Definition list_ids (this : ModelRegistry) : list string :=
  Js.map_keys (models this).

Definition count (this : ModelRegistry) : nat := length (models this).

End Registry.

Arguments Registration : clear implicits.
Arguments ModelRegistry : clear implicits.
Arguments Match : clear implicits.

(** ** The pipeline engine ([core/pipelineEngine.js]) *)

(** The [status] argument of a progress event: ['loading'], ['success'] or
    ['error']. *)
Inductive Status : Type := St_loading | St_success | St_error.

(** *** Computations that may throw

    [M Σ A] is a computation over a store [Σ] that returns an [A] or throws
    an [Error].  The store it leaves behind is returned in both cases, as a
    JS [catch] block sees every mutation made before the [throw]. *)

Definition M (Σ A : Type) : Type := Σ -> (Error + A) * Σ.

Definition ret {Σ A} (a : A) : M Σ A := fun s => (inr a, s).

Definition throw {Σ A} (e : Error) : M Σ A := fun s => (inl e, s).

Definition bind {Σ A B} (m : M Σ A) (k : A -> M Σ B) : M Σ B :=
  fun s =>
    match m s with
    | (inr a, s') => k a s'
    | (inl e, s') => (inl e, s')
    end.

(** [try { m } catch (e) { handler e }] *)
Definition try_catch {Σ A} (m : M Σ A) (handler : Error -> M Σ A) : M Σ A :=
  fun s =>
    match m s with
    | (inr a, s') => (inr a, s')
    | (inl e, s') => handler e s'
    end.

Notation "'let!' x ':=' m 'in' k" := (bind m (fun x => k))
  (at level 10, x name, m at level 100, k at level 200).
Notation "m ';;' k" := (bind m (fun _ => k))
  (at level 100, k at level 200, right associativity).

(** A local mutable object [l] next to the store. *)
Definition lift {Σ L A} (m : M Σ A) : M (L * Σ) A :=
  fun ls =>
    match m ls.2 with
    | (r, s') => (r, (ls.1, s'))
    end.

Definition update {Σ L} (f : L -> L) : M (L * Σ) unit :=
  fun ls => (inr tt, (f ls.1, ls.2)).

Definition read {Σ L} : M (L * Σ) L :=
  fun ls => (inr ls.1, ls).

Definition with_local {Σ L A} (l : L) (m : M (L * Σ) A) : M Σ A :=
  fun s =>
    match m (l, s) with
    | (r, ls') => (r, ls'.2)
    end.

Section Engine.

Context {Input Output World Model Callback : Type}.
Context `{EqDecision Callback}.

(** [context]: a JS object from names to outputs of earlier steps. *)
Abbreviation AnalysisContext := (gmap string Output).

(** What the external collaborators do when called.  [analyze] returns the
    thrown error or the output; [invoke] returns the error a callback
    throws, if any; [now] is the clock read by [Date.now()]. *)
Variable analyze : Model -> Input -> AnalysisContext -> World -> (Error + Output) * World.
Variable invoke : Callback -> Z -> Z -> string -> Status -> World -> option Error * World.
Variable now : World -> Z.

(** Calls made to the collaborators, in order. *)
Inductive Event : Type :=
| EvAnalyze (m : Model) (input : Input) (context : AnalysisContext)
| EvProgress (cb : Callback) (step total : Z) (message : string) (status : Status).

Record State : Type := mkState {
  world : World;
  trace : list Event
}.

Definition Date_now {L} : M (L * State) Z :=
  fun ls => (inr (now (world ls.2)), ls).

Definition call_analyze (m : Model) (input : Input) (context : AnalysisContext) : M State Output :=
  fun s =>
    match analyze m input context (world s) with
    | (r, w') => (r, {| world := w'; trace := trace s ++ [EvAnalyze m input context] |})
    end.

Definition call_callback (cb : Callback) (step total : Z) (msg : string)
    (status : Status) : M State unit :=
  fun s =>
    match invoke cb step total msg status (world s) with
    | (r, w') =>
        (match r with Some e => inl e | None => inr tt end,
         {| world := w';
            trace := trace s ++ [EvProgress cb step total msg status] |})
    end.

(** *** PipelineResult *)

Record StepRecord : Type := mkStepRecord {
  step_name : string;
  step_duration : Z;
  step_success : bool;
  step_error : option string
}.

Record PipelineResult : Type := mkPipelineResult {
  steps : list StepRecord;
  outputs : gmap string Output;
  startTime : Z;
  endTime : option Z;
  success : bool;
  error : option Error
}.

(** [new PipelineResult()], with the value read from the clock. *)
Definition new_PipelineResult (t : Z) : PipelineResult :=
  {| steps := []; outputs := ∅; startTime := t; endTime := None;
     success := false; error := None |}.

Definition addStep (name : string) (output : Output) (duration : Z)
    (this : PipelineResult) : PipelineResult :=
  {| steps := steps this ++
       [{| step_name := name; step_duration := duration;
           step_success := true; step_error := None |}];
     outputs := <[name := output]> (outputs this);
     startTime := startTime this; endTime := endTime this;
     success := success this; error := error this |}.

Definition addError (name : string) (err : Error) (duration : Z)
    (this : PipelineResult) : PipelineResult :=
  {| steps := steps this ++
       [{| step_name := name; step_duration := duration;
           step_success := false; step_error := Some (message err) |}];
     outputs := outputs this;
     startTime := startTime this; endTime := endTime this;
     success := success this; error := Some err |}.

(** [result.error = error] *)
Definition set_error (err : Error) (this : PipelineResult) : PipelineResult :=
  {| steps := steps this; outputs := outputs this;
     startTime := startTime this; endTime := endTime this;
     success := success this; error := Some err |}.

(** [complete(success)], with the value read from the clock. *)
Definition complete (t : Z) (success' : bool) (this : PipelineResult) : PipelineResult :=
  {| steps := steps this; outputs := outputs this;
     startTime := startTime this; endTime := Some t;
     success := success'; error := error this |}.

(** *** PipelineEngine *)

Record PipelineEngine : Type := mkPipelineEngine {
  progressCallbacks : list Callback
}.

(** [new PipelineEngine()] *)
Definition new_PipelineEngine : PipelineEngine :=
  {| progressCallbacks := [] |}.

(** The function returned by [onProgress(callback)]. *)
Definition unsubscribe (callback : Callback) (this : PipelineEngine) : PipelineEngine :=
  let index := Js.indexOf (progressCallbacks this) callback in
  if bool_decide (index > -1)
  then {| progressCallbacks := Js.splice1 index (progressCallbacks this) |}
  else this.

(** [onProgress(callback)]: the engine after the call and the returned
    unsubscribe function. *)
Definition onProgress (callback : Callback) (this : PipelineEngine)
    : PipelineEngine * (PipelineEngine -> PipelineEngine) :=
  ({| progressCallbacks := progressCallbacks this ++ [callback] |},
   unsubscribe callback).

(** [callbacks.forEach(cb => cb(step, total, message, status))] *)
Fixpoint forEach_callback (callbacks : list Callback) (step total : Z)
    (msg : string) (status : Status) : M State unit :=
  match callbacks with
  | [] => ret tt
  | cb :: rest =>
      call_callback cb step total msg status ;;
      forEach_callback rest step total msg status
  end.

Definition _emitProgress (this : PipelineEngine) (step total : Z)
    (msg : string) (status : Status) : M State unit :=
  forEach_callback (progressCallbacks this) step total msg status.

(** The loop over the fallbacks in [runWithFallback], followed by
    [throw error]. *)
Fixpoint try_fallbacks (fallbacks : list Model) (input : Input)
    (context : AnalysisContext) (err : Error) : M State Output :=
  match fallbacks with
  | [] => throw err
  | fallback :: rest =>
      try_catch (call_analyze fallback input context)
        (fun fallbackError => try_fallbacks rest input context err)
  end.

Definition runWithFallback (modelRegistry : ModelRegistry Model)
    (modelId : string) (input : Input) (context : AnalysisContext) : M State Output :=
  match get modelRegistry modelId with
  | None => throw (mkError ("Model not found: " +:+ modelId))
  | Some m =>
      try_catch (call_analyze m input context)
        (fun err =>
           let fallbacks := getFallbacks modelRegistry modelId in
           try_fallbacks fallbacks input context err)
  end.

(** [steps.length] in [executeImagePipeline] *)
Definition steps_length : Z := 2.

(** The [try] block of [executeImagePipeline]; [result] is the local object
    next to the store. *)
Definition executeImagePipeline_try (this : PipelineEngine)
    (modelRegistry : ModelRegistry Model) (image : Input)
    : M (PipelineResult * State) PipelineResult :=
  lift (_emitProgress this 1 steps_length "Scanning image..." St_loading) ;;
  let! stepStart := Date_now in
  let! detections := lift (runWithFallback modelRegistry "gemini-vision" image ∅) in
  let! t1 := Date_now in
  update (addStep "vision" detections (t1 - stepStart)) ;;
  lift (_emitProgress this 2 steps_length "Analyzing safety..." St_loading) ;;
  let! step2Start := Date_now in
  let! report := lift (runWithFallback modelRegistry "gemini-reasoning" image
                         {[ "detections" := detections ]}) in
  let! t2 := Date_now in
  update (addStep "reasoning" report (t2 - step2Start)) ;;
  lift (_emitProgress this steps_length steps_length "Analysis complete" St_success) ;;
  let! t3 := Date_now in
  update (complete t3 true) ;;
  read.

(** The [catch (error)] block of [executeImagePipeline]. *)
Definition executeImagePipeline_catch (this : PipelineEngine) (err : Error)
    : M (PipelineResult * State) PipelineResult :=
  lift (_emitProgress this 0 steps_length (message err) St_error) ;;
  update (set_error err) ;;
  let! t := Date_now in
  update (complete t false) ;;
  read.

Definition executeImagePipeline (this : PipelineEngine)
    (modelRegistry : ModelRegistry Model) (image : Input) : M State PipelineResult :=
  fun s0 =>
    with_local (new_PipelineResult (now (world s0)))
      (try_catch (executeImagePipeline_try this modelRegistry image)
                 (executeImagePipeline_catch this))
      s0.

End Engine.

Arguments Event : clear implicits.
Arguments State : clear implicits.
Arguments PipelineResult : clear implicits.
Arguments PipelineEngine : clear implicits.

(** ** Specification-side vocabulary *)

Section Vocabulary.

Context {Input Output World Model Callback : Type}.
Variable getCapabilities : Model -> Capabilities.
Variable analyze : Model -> Input -> gmap string Output -> World -> (Error + Output) * World.
Variable invoke : Callback -> Z -> Z -> string -> Status -> World -> option Error * World.
Variable now : World -> Z.

Abbreviation EngineState := (State Input Output World Model Callback).


(** A filter field is unset when it is absent or, as JS tests it with [!x],
    the empty string. *)
Definition unset (x : option string) : Prop := x = None \/ x = Some "".

(** The descriptor [caps] matches the filter: every field that is set is
    equal to the descriptor's. *)
Definition descriptor_matches (f : Filter) (caps : Capabilities) : Prop :=
  (unset (flt_type f) \/ flt_type f = Some (cap_type caps)) /\
  (unset (flt_role f) \/ flt_role f = Some (cap_role caps)).

#[global] Instance unset_dec (x : option string) : Decision (unset x).
Proof. unfold unset. apply _. Defined.

#[global] Instance descriptor_matches_dec (f : Filter) (caps : Capabilities) :
  Decision (descriptor_matches f caps).
Proof. unfold descriptor_matches. apply _. Defined.



(** Every model of [ms], called in turn with the same arguments from store
    [s], throws; [s'] is the store after the last call. *)
Fixpoint all_fail (ms : list Model) (input : Input) (context : gmap string Output)
    (s s' : EngineState) : Prop :=
  match ms with
  | [] => s' = s
  | m :: rest =>
      exists e s1, call_analyze analyze m input context s = (inl e, s1) /\
                   all_fail rest input context s1 s'
  end.


(** The events of [s'] that were appended after [s]. *)
Definition events_since (s s' : EngineState) : list (Event Input Output Model Callback) :=
  drop (length (trace s)) (trace s').

Definition is_analyze (ev : Event Input Output Model Callback) : bool :=
  match ev with
  | EvAnalyze _ _ _ => true
  | EvProgress _ _ _ _ _ => false
  end.

(** The ways the [try] block of [executeImagePipeline] can end when started
    with the local object [res0] in store [s]: what it returns or throws,
    the local object and the store it leaves. *)
Inductive try_outcome (this : PipelineEngine Callback) (reg : ModelRegistry Model)
    (image : Input) (res0 : PipelineResult Output) (s : EngineState)
    : Error + PipelineResult Output -> PipelineResult Output -> EngineState -> Prop :=
| Ends_loading1_raised e s1 :
    _emitProgress invoke this 1 steps_length "Scanning image..." St_loading s = (inl e, s1) ->
    try_outcome this reg image res0 s (inl e) res0 s1
| Ends_vision_failed s1 e s2 :
    _emitProgress invoke this 1 steps_length "Scanning image..." St_loading s = (inr tt, s1) ->
    runWithFallback analyze reg "gemini-vision" image ∅ s1 = (inl e, s2) ->
    try_outcome this reg image res0 s (inl e) res0 s2
| Ends_loading2_raised s1 d s2 e s3 :
    _emitProgress invoke this 1 steps_length "Scanning image..." St_loading s = (inr tt, s1) ->
    runWithFallback analyze reg "gemini-vision" image ∅ s1 = (inr d, s2) ->
    _emitProgress invoke this 2 steps_length "Analyzing safety..." St_loading s2 = (inl e, s3) ->
    try_outcome this reg image res0 s (inl e)
      (addStep "vision" d (now (world s2) - now (world s1)) res0) s3
| Ends_reasoning_failed s1 d s2 s3 e s4 :
    _emitProgress invoke this 1 steps_length "Scanning image..." St_loading s = (inr tt, s1) ->
    runWithFallback analyze reg "gemini-vision" image ∅ s1 = (inr d, s2) ->
    _emitProgress invoke this 2 steps_length "Analyzing safety..." St_loading s2 = (inr tt, s3) ->
    runWithFallback analyze reg "gemini-reasoning" image {[ "detections" := d ]} s3 = (inl e, s4) ->
    try_outcome this reg image res0 s (inl e)
      (addStep "vision" d (now (world s2) - now (world s1)) res0) s4
| Ends_success_raised s1 d s2 s3 rep s4 e s5 :
    _emitProgress invoke this 1 steps_length "Scanning image..." St_loading s = (inr tt, s1) ->
    runWithFallback analyze reg "gemini-vision" image ∅ s1 = (inr d, s2) ->
    _emitProgress invoke this 2 steps_length "Analyzing safety..." St_loading s2 = (inr tt, s3) ->
    runWithFallback analyze reg "gemini-reasoning" image {[ "detections" := d ]} s3 = (inr rep, s4) ->
    _emitProgress invoke this steps_length steps_length "Analysis complete" St_success s4 = (inl e, s5) ->
    try_outcome this reg image res0 s (inl e)
      (addStep "reasoning" rep (now (world s4) - now (world s3))
         (addStep "vision" d (now (world s2) - now (world s1)) res0)) s5
| Ends_completed s1 d s2 s3 rep s4 s5 :
    _emitProgress invoke this 1 steps_length "Scanning image..." St_loading s = (inr tt, s1) ->
    runWithFallback analyze reg "gemini-vision" image ∅ s1 = (inr d, s2) ->
    _emitProgress invoke this 2 steps_length "Analyzing safety..." St_loading s2 = (inr tt, s3) ->
    runWithFallback analyze reg "gemini-reasoning" image {[ "detections" := d ]} s3 = (inr rep, s4) ->
    _emitProgress invoke this steps_length steps_length "Analysis complete" St_success s4 = (inr tt, s5) ->
    let res :=
      complete (now (world s5)) true
        (addStep "reasoning" rep (now (world s4) - now (world s3))
           (addStep "vision" d (now (world s2) - now (world s1)) res0)) in
    try_outcome this reg image res0 s (inr res) res s5.

End Vocabulary.

(** ** Concrete collaborators used in the examples *)

Module Fixture.

(** A model that returns a fixed output, or throws a fixed error. *)
Inductive stub_model : Type :=
| Returns (out : Z)
| Throws (msg : string).

Definition getCapabilities (m : stub_model) : Capabilities :=
  {| cap_type := "image"; cap_role := "detection"; cap_priority := 1;
     cap_supports := [] |}.

(** The world is the clock; every call of a model takes one tick. *)
Definition analyze (m : stub_model) (input : unit) (context : gmap string Z) (w : Z)
    : (Error + Z) * Z :=
  match m with
  | Returns out => (inr out, w + 1)
  | Throws msg => (inl (mkError msg), w + 1)
  end.

(** An observer that returns, or one that throws on every event. *)
Inductive stub_observer : Type :=
| Quiet (n : nat)
| Raising (n : nat).

#[global] Instance stub_observer_eq_dec : EqDecision stub_observer.
Proof. solve_decision. Defined.

Definition invoke (cb : stub_observer) (step total : Z) (msg : string)
    (status : Status) (w : Z) : option Error * Z :=
  match cb with
  | Quiet _ => (None, w)
  | Raising _ => (Some (mkError "observer failed"), w)
  end.

Definition now (w : Z) : Z := w.

Definition state0 : State unit Z Z stub_model stub_observer :=
  {| world := 0; trace := [] |}.

Definition no_options : Options := mkOptions None None None.

Definition fallback_for (primary : string) : Options :=
  mkOptions None (Some primary) None.

(** A primary ["p"] that throws, with fallbacks ["f1"] (throws) and ["f2"]
    (returns). *)
Definition registry_chain : ModelRegistry stub_model :=
  register "f2" (Returns 2) (fallback_for "p")
    (register "f1" (Throws "f1 down") (fallback_for "p")
       (register "p" (Throws "p down") no_options empty_registry)).

(** The two models of the image pipeline: vision returns, reasoning throws,
    no fallbacks. *)
Definition registry_step2_fails : ModelRegistry stub_model :=
  register "gemini-reasoning" (Throws "reasoning down") no_options
    (register "gemini-vision" (Returns 7) no_options empty_registry).

(** ["f"] registered twice as a fallback of ["p"]. *)
Definition registry_twice : ModelRegistry stub_model :=
  register "f" (Returns 1) (fallback_for "p")
    (register "f" (Returns 1) (fallback_for "p") empty_registry).




Definition engine_quiet : PipelineEngine stub_observer :=
  {| progressCallbacks := [Quiet 0] |}.




End Fixture.

(** ** Further parts of the registry *)

Module JsObject.

(** [obj[key] = value] on a plain object whose values are objects: an own
    property is created or overwritten, except for the key ["__proto__"],
    where the assignment replaces the prototype and creates no own
    property. *)
Definition set {V} (obj : gmap string V) (key : string) (value : V) : gmap string V :=
  if decide (key = "__proto__") then obj else <[key := value]> obj.

End JsObject.

(** An entry of the object returned by [ModelRegistry.healthCheck]. *)
Record HealthStatus : Type := mkHealthStatus {
  hs_healthy : bool;
  hs_enabled : bool;
  hs_error : option string
}.

Section HealthCheck.

Context {World Model : Type}.

(** What [model.healthCheck()] does: it returns a boolean or throws. *)
Variable model_healthCheck : Model -> World -> (Error + bool) * World.

(** The world and the models probed so far, oldest first. *)
Record ProbeState : Type := mkProbeState {
  p_world : World;
  p_probed : list Model
}.

Definition call_healthCheck (m : Model) : M ProbeState bool :=
  fun s =>
    match model_healthCheck m (p_world s) with
    | (r, w') => (r, {| p_world := w'; p_probed := p_probed s ++ [m] |})
    end.

(** The loop of [healthCheck] over [this.models.entries()]. *)
Fixpoint healthCheck_entries (entries : Js.Map (Registration Model))
    (results : gmap string HealthStatus) : M ProbeState (gmap string HealthStatus) :=
  match entries with
  | [] => ret results
  | (id, registration) :: rest =>
      let! results' :=
        try_catch
          (let! healthy := call_healthCheck (model registration) in
           ret (JsObject.set results id
                  {| hs_healthy := healthy; hs_enabled := enabled registration;
                     hs_error := None |}))
          (fun err =>
             ret (JsObject.set results id
                    {| hs_healthy := false; hs_enabled := enabled registration;
                       hs_error := Some (message err) |})) in
      healthCheck_entries rest results'
  end.

Definition healthCheck (this : ModelRegistry Model)
    : M ProbeState (gmap string HealthStatus) :=
  healthCheck_entries (models this) ∅.

(** The registries that [register] and [unregister] build from
    [new ModelRegistry()]. *)
Inductive reachable : ModelRegistry Model -> Prop :=
| reachable_empty : reachable empty_registry
| reachable_register id m options reg :
    reachable reg -> reachable (register id m options reg)
| reachable_unregister id reg :
    reachable reg -> reachable (unregister id reg).

End HealthCheck.

Arguments ProbeState : clear implicits.

(** The entry [healthCheck] records for a model whose probe ended with [r]. *)
Definition status_of (r : Error + bool) (enabled' : bool) : HealthStatus :=
  match r with
  | inr healthy => {| hs_healthy := healthy; hs_enabled := enabled'; hs_error := None |}
  | inl err => {| hs_healthy := false; hs_enabled := enabled';
                  hs_error := Some (message err) |}
  end.

Section Vocabulary2.

Context {Input Output World Model Callback : Type}.

(** The observer calls made when each event of [events] is delivered, in
    turn, to every observer of [cbs]. *)
Definition broadcast (cbs : list Callback) (events : list (Z * Z * string * Status))
    : list (Event Input Output Model Callback) :=
  events ≫= (fun ev => (fun cb => EvProgress cb ev.1.1.1 ev.1.1.2 ev.1.2 ev.2) <$> cbs).


(** Between the stores [s] and [s'] only calls that satisfy [P] were made. *)
Definition only_calls (P : Event Input Output Model Callback -> Prop)
    (s s' : State Input Output World Model Callback) : Prop :=
  exists evs, trace s' = trace s ++ evs /\ Forall P evs.

(** Between the stores [s] and [s'] the observer calls made were those of
    delivering [events], in turn, to every observer of [cbs]. *)
Definition delivered (cbs : list Callback) (events : list (Z * Z * string * Status))
    (s s' : State Input Output World Model Callback) : Prop :=
  exists evs, trace s' = trace s ++ evs /\
              filter (fun ev => is_analyze ev = false) evs = broadcast cbs events.

End Vocabulary2.

(** ** The image pipeline ([pipelines/imagePipeline.js]) *)

Section ImagePipeline.

Context {Input Output World Model Callback : Type}.

(** [analyze] and the clock are as for the engine.  The progress callback of
    [execute] is called with three or four arguments: [status] is [None]
    where the call leaves it out. *)
Variable analyze : Model -> Input -> gmap string Output -> World -> (Error + Output) * World.
Variable invoke : Callback -> Z -> Z -> string -> option Status -> World -> option Error * World.
Variable now : World -> Z.

Inductive IpEvent : Type :=
| IpAnalyze (m : Model) (input : Input) (context : gmap string Output)
| IpProgress (cb : Callback) (step total : Z) (message : string) (status : option Status).

Record IpState : Type := mkIpState {
  ip_world : World;
  ip_trace : list IpEvent
}.

(** An entry of [results.steps]. *)
Record IpStep : Type := mkIpStep {
  ips_success : bool;
  ips_output : Output;
  ips_duration : Z
}.

(** The [results] object of [execute]; [error] and [duration] are absent
    until they are assigned. *)
Record IpResults : Type := mkIpResults {
  ipr_startTime : Z;
  ipr_steps : gmap string IpStep;
  ipr_success : bool;
  ipr_error : option Error;
  ipr_duration : option Z
}.

Definition ip_set_step (name : string) (step : IpStep) (results : IpResults) : IpResults :=
  {| ipr_startTime := ipr_startTime results;
     ipr_steps := <[name := step]> (ipr_steps results);
     ipr_success := ipr_success results; ipr_error := ipr_error results;
     ipr_duration := ipr_duration results |}.

Definition ip_set_success (b : bool) (results : IpResults) : IpResults :=
  {| ipr_startTime := ipr_startTime results; ipr_steps := ipr_steps results;
     ipr_success := b; ipr_error := ipr_error results;
     ipr_duration := ipr_duration results |}.

Definition ip_set_error (err : Error) (results : IpResults) : IpResults :=
  {| ipr_startTime := ipr_startTime results; ipr_steps := ipr_steps results;
     ipr_success := ipr_success results; ipr_error := Some err;
     ipr_duration := ipr_duration results |}.

Definition ip_set_duration (d : Z) (results : IpResults) : IpResults :=
  {| ipr_startTime := ipr_startTime results; ipr_steps := ipr_steps results;
     ipr_success := ipr_success results; ipr_error := ipr_error results;
     ipr_duration := Some d |}.

Definition ip_Date_now {L} : M (L * IpState) Z :=
  fun ls => (inr (now (ip_world ls.2)), ls).

Definition ip_call_analyze (m : Model) (input : Input) (context : gmap string Output)
    : M IpState Output :=
  fun s =>
    match analyze m input context (ip_world s) with
    | (r, w') => (r, {| ip_world := w'; ip_trace := ip_trace s ++ [IpAnalyze m input context] |})
    end.

(** [onProgress(step, total, message, status)] where [onProgress] is
    [options.onProgress || (() => { })]. *)
Definition ip_onProgress (onProgress : option Callback) (step total : Z)
    (msg : string) (status : option Status) : M IpState unit :=
  match onProgress with
  | None => ret tt
  | Some cb =>
      fun s =>
        match invoke cb step total msg status (ip_world s) with
        | (r, w') =>
            (match r with Some e => inl e | None => inr tt end,
             {| ip_world := w';
                ip_trace := ip_trace s ++ [IpProgress cb step total msg status] |})
        end
  end.

(** [this.steps.length] *)
Definition ip_steps_length : Z := 2.

(** The [try] block of [ImagePipeline.execute]. *)
Definition ip_execute_try (modelRegistry : ModelRegistry Model) (image : Input)
    (onProgress : option Callback) : M (IpResults * IpState) unit :=
  lift (ip_onProgress onProgress 1 ip_steps_length
          "Scanning for objects and hazards..." None) ;;
  match get modelRegistry "gemini-vision" with
  | None => throw (mkError "Vision model not available")
  | Some detector =>
      let! detections := lift (ip_call_analyze detector image ∅) in
      let! t1 := ip_Date_now in
      let! results := read in
      update (ip_set_step "detect"
                {| ips_success := true; ips_output := detections;
                   ips_duration := t1 - ipr_startTime results |}) ;;
      lift (ip_onProgress onProgress 2 ip_steps_length
              "Analyzing safety conditions..." None) ;;
      match get modelRegistry "gemini-reasoning" with
      | None => throw (mkError "Reasoning model not available")
      | Some analyzer =>
          let! analysisStart := ip_Date_now in
          let! analysis := lift (ip_call_analyze analyzer image
                                   {[ "detections" := detections ]}) in
          let! t2 := ip_Date_now in
          update (ip_set_step "analyze"
                    {| ips_success := true; ips_output := analysis;
                       ips_duration := t2 - analysisStart |}) ;;
          update (ip_set_success true) ;;
          let! t3 := ip_Date_now in
          let! results' := read in
          update (ip_set_duration (t3 - ipr_startTime results')) ;;
          lift (ip_onProgress onProgress ip_steps_length ip_steps_length
                  "Analysis complete" (Some St_success))
      end
  end.

(** The [catch (error)] block of [ImagePipeline.execute]. *)
Definition ip_execute_catch (onProgress : option Callback) (err : Error)
    : M (IpResults * IpState) unit :=
  update (ip_set_success false) ;;
  update (ip_set_error err) ;;
  lift (ip_onProgress onProgress 0 ip_steps_length (message err) (Some St_error)).

(** [execute(image, options)], with [options.onProgress] as [onProgress]. *)
Definition ip_execute (modelRegistry : ModelRegistry Model) (image : Input)
    (onProgress : option Callback) : M IpState IpResults :=
  fun s0 =>
    with_local
      {| ipr_startTime := now (ip_world s0); ipr_steps := ∅; ipr_success := false;
         ipr_error := None; ipr_duration := None |}
      (try_catch (ip_execute_try modelRegistry image onProgress)
                 (ip_execute_catch onProgress) ;;
       read)
      s0.

Definition ip_is_analyze (ev : IpEvent) : bool :=
  match ev with
  | IpAnalyze _ _ _ => true
  | IpProgress _ _ _ _ _ => false
  end.

End ImagePipeline.

Arguments IpEvent : clear implicits.
Arguments IpState : clear implicits.
Arguments IpStep : clear implicits.
Arguments IpResults : clear implicits.

(** ** Configuration and the Gemini models
    ([core/config.js], [models/geminiVision.js], [models/geminiReasoning.js]) *)

Module Config.

(** [localStorage]: [getItem] of an absent key is [null]. *)
Abbreviation Storage := (gmap string string).

(** [localStorage.getItem(key) || ''] *)
Definition get_key (key : string) (storage : Storage) : string :=
  match storage !! key with
  | Some v => if decide (v = "") then "" else v
  | None => ""
  end.

(** The getters and setters of [Config.keys]. *)
Definition vision (storage : Storage) : string := get_key "gemini_vision_key" storage.

Definition set_vision (value : string) (storage : Storage) : Storage :=
  <["gemini_vision_key" := value]> storage.

Definition reasoning (storage : Storage) : string := get_key "gemini_reasoning_key" storage.

Definition set_reasoning (value : string) (storage : Storage) : Storage :=
  <["gemini_reasoning_key" := value]> storage.

(** [!x] for a string [x] *)
Definition not_str (x : string) : bool := bool_decide (x = "").

Record ConfigStatus : Type := mkConfigStatus {
  valid : bool;
  issues : list string
}.

Definition validateConfig (storage : Storage) : ConfigStatus :=
  let issues0 : list string := [] in
  let issues1 :=
    if not_str (vision storage) then issues0 ++ ["Vision API key not configured"]
    else issues0 in
  let issues2 :=
    if not_str (reasoning storage)
    then issues1 ++ ["Reasoning API key not configured"]
    else issues1 in
  {| valid := bool_decide (length issues2 = 0%nat); issues := issues2 |}.

End Config.

Module Gemini.

(** The two model classes of the application. *)
Inductive kind : Type := Vision | Reasoning.

(** An instance: its class and its [initialized] flag. *)
Record instance : Type := mkInstance {
  class : kind;
  initialized : bool
}.

(** [new GeminiVisionModel()], [new GeminiReasoningModel()] *)
Definition new (k : kind) : instance := {| class := k; initialized := false |}.

Definition getCapabilities (this : instance) : Capabilities :=
  match class this with
  | Vision =>
      {| cap_type := "image"; cap_role := "detection"; cap_priority := 1;
         cap_supports := ["bounding_boxes"; "object_labels"; "confidence_scores"] |}
  | Reasoning =>
      {| cap_type := "image"; cap_role := "analysis"; cap_priority := 1;
         cap_supports := ["risk_assessment"; "safety_report"; "recommendations"] |}
  end.

(** The key a class reads from [Config.keys]. *)
Definition key (k : kind) (storage : Config.Storage) : string :=
  match k with
  | Vision => Config.vision storage
  | Reasoning => Config.reasoning storage
  end.

(** [initialize()]: throws when the key is missing, else sets
    [this.initialized]. *)
Definition initialize (this : instance) (storage : Config.Storage) : Error + instance :=
  if Config.not_str (key (class this) storage)
  then inl (mkError (match class this with
                     | Vision => "Vision API key not configured"
                     | Reasoning => "Reasoning API key not configured"
                     end))
  else inr {| class := class this; initialized := true |}.

(** [healthCheck()]: [!!Config.keys.vision], [!!Config.keys.reasoning]. *)
Definition healthCheck (this : instance) (storage : Config.Storage)
    : (Error + bool) * Config.Storage :=
  (inr (negb (Config.not_str (key (class this) storage))), storage).

(** [registerModels()] of [app.js], on a registry. *)
Definition registerModels (modelRegistry : ModelRegistry instance) : ModelRegistry instance :=
  register "gemini-reasoning" (new Reasoning) (mkOptions (Some 1) None None)
    (register "gemini-vision" (new Vision) (mkOptions (Some 1) None None)
       modelRegistry).

End Gemini.

(** ** The rest of [PipelineResult] and the caller of the engine ([app.js]) *)

(** The getter [duration]: [(this.endTime || Date.now()) - this.startTime],
    with the value read from the clock; an [endTime] of [0] is falsy. *)
Definition duration {Output} (this : PipelineResult Output) (clock : Z) : Z :=
  match endTime this with
  | Some t => if decide (t = 0) then clock else t
  | None => clock
  end - startTime this.

Section App.

Context {Input Output World Model Callback : Type}.
Context {eqCallback : EqDecision Callback}.

Variable analyze : Model -> Input -> gmap string Output -> World -> (Error + Output) * World.
Variable invoke : Callback -> Z -> Z -> string -> Status -> World -> option Error * World.
Variable now : World -> Z.

(** The functions of [app.js] that act on the page.  An output argument is
    [None] where the call passes the literal that replaces a missing or
    falsy output. *)
Inductive UiCall : Type :=
| ShowLoading (show : bool)
| RenderDetections (image : Input) (detections : option Output)
| DisplayReport (report : option Output)
| UpdateProgress (step total : Z) (msg : string) (status : Status).

(** What a call of one of them does to the world, and the error it throws,
    if any; [truthy] is the truth value of an output. *)
Variable ui : UiCall -> World -> option Error * World.
Variable truthy : Output -> bool.

Record AppState : Type := mkAppState {
  isProcessing : bool;
  currentImage : option Input;
  lastResult : option (PipelineResult Output)
}.

Definition ui_call (c : UiCall) (s : State Input Output World Model Callback)
    : option Error * State Input Output World Model Callback :=
  match ui c (world s) with
  | (r, w') => (r, {| world := w'; trace := trace s |})
  end.

(** [result.outputs.name || literal] *)
Definition output_or_literal (res : PipelineResult Output) (name : string)
    : option Output :=
  match outputs res !! name with
  | Some v => if truthy v then Some v else None
  | None => None
  end.

(** [result.error?.message || 'Analysis failed'] *)
Definition message_or_default (res : PipelineResult Output) : string :=
  match error res with
  | Some e => if decide (message e = "") then "Analysis failed" else message e
  | None => "Analysis failed"
  end.

(** The [finally] block of [runAnalysis]; the deferred [showLoading(false)]
    runs after [runAnalysis] has returned. *)
Definition runAnalysis_finally (app : AppState) : AppState :=
  {| isProcessing := false; currentImage := currentImage app;
     lastResult := lastResult app |}.

(** [runAnalysis(image)] on the application state, the engine and the store;
    [callback] is the function object the call creates for [onProgress].
    Errors thrown inside the [try] are caught and logged. *)
Definition runAnalysis (callback : Callback) (modelRegistry : ModelRegistry Model)
    (image : Input) (app : AppState) (engine : PipelineEngine Callback)
    (s : State Input Output World Model Callback)
    : AppState * PipelineEngine Callback * State Input Output World Model Callback :=
  if isProcessing app then (app, engine, s)
  else
    let app1 := {| isProcessing := true; currentImage := Some image;
                   lastResult := lastResult app |} in
    match ui_call (ShowLoading true) s with
    | (Some _, s1) => (runAnalysis_finally app1, engine, s1)
    | (None, s1) =>
        let subscribed := onProgress callback engine in
        let engine1 := subscribed.1 in
        let unsubscribe := subscribed.2 in
        match executeImagePipeline analyze invoke now engine1 modelRegistry image s1 with
        | (inl _, s2) => (runAnalysis_finally app1, engine1, s2)
        | (inr result, s2) =>
            let app2 := {| isProcessing := isProcessing app1;
                           currentImage := currentImage app1;
                           lastResult := Some result |} in
            let engine2 := unsubscribe engine1 in
            if success result then
              match ui_call (RenderDetections image (output_or_literal result "vision")) s2 with
              | (Some _, s3) => (runAnalysis_finally app2, engine2, s3)
              | (None, s3) =>
                  match ui_call (DisplayReport (output_or_literal result "reasoning")) s3 with
                  | (_, s4) => (runAnalysis_finally app2, engine2, s4)
                  end
              end
            else
              match ui_call (UpdateProgress 0 2 (message_or_default result) St_error) s2 with
              | (_, s3) => (runAnalysis_finally app2, engine2, s3)
              end
        end
    end.

End App.

Arguments AppState : clear implicits.
Arguments UiCall : clear implicits.

(** ** Further concrete collaborators used in the examples *)

Module Stubs.

Import Fixture.

(** The probe of a stub model: a model that returns is healthy when its
    output is positive; a model that throws also throws when probed. *)
Definition model_healthCheck (m : stub_model) (w : Z) : (Error + bool) * Z :=
  match m with
  | Returns out => (inr (bool_decide (0 < out)), w + 1)
  | Throws msg => (inl (mkError msg), w + 1)
  end.


(** An observer that throws on the events of one status only. *)
Inductive picky_observer : Type := ThrowsOn (status : Status).

#[global] Instance Status_eq_dec : EqDecision Status.
Proof. solve_decision. Defined.

#[global] Instance picky_observer_eq_dec : EqDecision picky_observer.
Proof. solve_decision. Defined.

Definition picky_invoke (cb : picky_observer) (step total : Z) (msg : string)
    (status : Status) (w : Z) : option Error * Z :=
  match cb with
  | ThrowsOn st =>
      if decide (status = st) then (Some (mkError "observer failed"), w) else (None, w)
  end.

Definition engine_picky : PipelineEngine picky_observer :=
  {| progressCallbacks := [ThrowsOn St_success] |}.

Definition picky_state0 : State unit Z Z stub_model picky_observer :=
  {| world := 0; trace := [] |}.

(** Both models of the image pipeline return. *)
Definition registry_both_return : ModelRegistry stub_model :=
  register "gemini-reasoning" (Returns 9) no_options
    (register "gemini-vision" (Returns 7) no_options empty_registry).

(** The progress callback of [ImagePipeline.execute]. *)
Definition ip_invoke (cb : stub_observer) (step total : Z) (msg : string)
    (status : option Status) (w : Z) : option Error * Z :=
  match cb with
  | Quiet _ => (None, w)
  | Raising _ => (Some (mkError "observer failed"), w)
  end.

Definition ip_state0 : IpState unit Z Z stub_model stub_observer :=
  {| ip_world := 0; ip_trace := [] |}.

(** Page functions that do nothing, and outputs that are all truthy. *)
Definition ui (c : UiCall unit Z) (w : Z) : option Error * Z := (None, w).

Definition truthy (out : Z) : bool := true.

Definition app0 : AppState unit Z :=
  {| isProcessing := false; currentImage := None; lastResult := None |}.

End Stubs.

(** * Properties *)

(** ** Arrays: [indexOf], [splice], [sort] *)

Section ArrayFacts.

Context {A : Type} {eqA : EqDecision A}.

Lemma indexOf_from_absent (l : list A) (x : A) (k : Z) :
  x ∉ l -> Js.indexOf_from l x k = -1.
Proof.
  revert k. induction l as [|y l IH]; intros k Hx; simpl; [done|].
  apply not_elem_of_cons in Hx as [Hne Hx].
  destruct (decide (y = x)); [congruence|]. by apply IH.
Qed.

Lemma indexOf_from_present (l : list A) (x : A) (k : Z) :
  x ∈ l -> exists i : nat, Js.indexOf_from l x k = k + Z.of_nat i /\
                           l !! i = Some x /\ x ∉ take i l.
Proof.
  revert k. induction l as [|y l IH]; intros k Hx; simpl.
  - by apply elem_of_nil in Hx.
  - destruct (decide (y = x)) as [->|Hne].
    + exists 0%nat. split; [lia|]. split; [done|]. simpl. apply not_elem_of_nil.
    + apply elem_of_cons in Hx as [Hx|Hx]; [congruence|].
      destruct (IH (k + 1) Hx) as (i & Hi & Hl & Ht).
      exists (S i). split; [lia|]. split; [done|].
      simpl. apply not_elem_of_cons. split; [congruence|done].
Qed.

Lemma remove_first_absent (x : A) (l : list A) :
  x ∉ l -> Js.remove_first x l = l.
Proof.
  intros Hx. unfold Js.remove_first, Js.indexOf.
  rewrite indexOf_from_absent by done.
  by rewrite bool_decide_eq_false_2 by lia.
Qed.

Lemma remove_first_head (x : A) (l : list A) :
  Js.remove_first x (x :: l) = l.
Proof.
  unfold Js.remove_first, Js.indexOf. simpl.
  destruct (decide (x = x)); [|congruence]. done.
Qed.

Lemma remove_first_skip (x y : A) (l : list A) :
  y <> x -> Js.remove_first x (y :: l) = y :: Js.remove_first x l.
Proof.
  intros Hne. unfold Js.remove_first, Js.indexOf. simpl.
  destruct (decide (y = x)); [congruence|].
  change (0 + 1) with 1.
  destruct (decide (x ∈ l)) as [Hin|Hnin].
  - destruct (indexOf_from_present l x 0 Hin) as (j & Hj & Hlj & Htj).
    destruct (indexOf_from_present l x 1 Hin) as (i' & Hi' & Hli & Hti).
    assert (i' = j) as ->.
    { destruct (Nat.lt_trichotomy i' j) as [Hlt|[->|Hlt]]; [|done|].
      - exfalso. apply Htj. apply list_elem_of_lookup. exists i'.
        by rewrite lookup_take_lt.
      - exfalso. apply Hti. apply list_elem_of_lookup. exists j.
        by rewrite lookup_take_lt. }
    rewrite Hi', Hj.
    rewrite !bool_decide_eq_true_2 by lia.
    unfold Js.splice1.
    replace (Z.to_nat (1 + Z.of_nat j)) with (S j) by lia.
    replace (Z.to_nat (0 + Z.of_nat j)) with j by lia.
    done.
  - rewrite !indexOf_from_absent by done.
    by rewrite !bool_decide_eq_false_2 by lia.
Qed.

(** [remove_first] removes the first occurrence and nothing else. *)
Lemma remove_first_split (x : A) (l1 l2 : list A) :
  x ∉ l1 -> Js.remove_first x (l1 ++ x :: l2) = l1 ++ l2.
Proof.
  induction l1 as [|y l1 IH]; intros Hx; simpl.
  - apply remove_first_head.
  - apply not_elem_of_cons in Hx as [Hne Hx].
    rewrite remove_first_skip by congruence. by rewrite IH.
Qed.

Lemma remove_first_count (x y : A) (l : list A) :
  count_occ eqA (Js.remove_first x l) y =
  if decide (y = x) then pred (count_occ eqA l y) else count_occ eqA l y.
Proof.
  induction l as [|z l IH].
  - rewrite remove_first_absent by apply not_elem_of_nil. simpl.
    by destruct (decide (y = x)).
  - destruct (decide (z = x)) as [->|Hne].
    + rewrite remove_first_head. simpl.
      destruct (eqA x y) as [->|Hxy].
      * rewrite decide_True; [reflexivity|done].
      * rewrite decide_False; [done|congruence].
    + rewrite remove_first_skip by done. simpl. rewrite IH.
      destruct (eqA z y) as [->|Hzy]; [|done].
      destruct (decide (y = x)); [congruence|done].
Qed.

Lemma count_occ_zero_absent (x : A) (l : list A) :
  count_occ eqA l x = 0%nat <-> x ∉ l.
Proof.
  rewrite list_elem_of_In. symmetry. apply count_occ_not_In.
Qed.

End ArrayFacts.

Section SortFacts.

Context {A : Type}.
Variable key : A -> Z.

(** A comparator [(a, b) => key b - key a]: a descending sort on [key]. *)
Variable descending : A -> A -> Z.
Hypothesis descending_key : forall a b, descending a b = key b - key a.

Lemma sort_insert_perm (x : A) (l : list A) :
  Permutation (Js.sort_insert descending x l) (x :: l).
Proof.
  induction l as [|y l IH]; simpl; [done|].
  case_bool_decide; [done|].
  rewrite IH. apply perm_swap.
Qed.


Lemma sort_insert_sorted (x : A) (l : list A) :
  StronglySorted (fun a b => key a >= key b) l ->
  StronglySorted (fun a b => key a >= key b) (Js.sort_insert descending x l).
Proof.
  induction 1 as [|y l Hs IH Hy]; simpl.
  - repeat constructor.
  - rewrite descending_key. case_bool_decide as Hc.
    + constructor; [by constructor|].
      constructor; [lia|].
      eapply Forall_impl; [exact Hy|]. simpl. intros z Hz. lia.
    + constructor; [done|].
      rewrite sort_insert_perm. constructor; [lia|done].
Qed.

Lemma sort_sorted (l : list A) :
  StronglySorted (fun a b => key a >= key b) (Js.sort descending l).
Proof.
  induction l as [|x l IH]; simpl; [constructor|].
  by apply sort_insert_sorted.
Qed.

(** Stability: elements of equal key keep their relative order. *)
Lemma sort_insert_stable (p : Z) (x : A) (l : list A) :
  filter (fun a => key a = p) (Js.sort_insert descending x l) =
  filter (fun a => key a = p) (x :: l).
Proof.
  induction l as [|y l IH]; simpl; [done|].
  rewrite descending_key. case_bool_decide as Hc; [done|].
  rewrite (filter_cons _ y (Js.sort_insert _ _ _)), IH.
  rewrite !filter_cons.
  destruct (decide (key x = p)), (decide (key y = p)); try done. lia.
Qed.

Lemma sort_stable (p : Z) (l : list A) :
  filter (fun a => key a = p) (Js.sort descending l) =
  filter (fun a => key a = p) l.
Proof.
  induction l as [|x l IH]; simpl; [done|].
  rewrite sort_insert_stable, !filter_cons. by rewrite IH.
Qed.

(** The three properties determine the result: a list that is sorted by
    descending key and has the key classes of [l], each in the order of [l],
    is [Js.sort descending l].  So any stable sorting algorithm returns what
    the insertion sort does. *)
Lemma sorted_classes_unique (r r' : list A) :
  StronglySorted (fun a b => key a >= key b) r ->
  StronglySorted (fun a b => key a >= key b) r' ->
  (forall p, filter (fun a => key a = p) r = filter (fun a => key a = p) r') ->
  r = r'.
Proof.
  intros Hr. revert r'. induction Hr as [|x xs Hs IH Hx]; intros r' Hr' Hcl.
  - destruct r' as [|y ys]; [done|].
    specialize (Hcl (key y)). rewrite filter_cons, decide_True in Hcl by done.
    done.
  - destruct Hr' as [|y ys Hs' Hy].
    { specialize (Hcl (key x)). rewrite filter_cons, decide_True in Hcl by done.
      done. }
    assert (key x = key y) as Hk.
    { assert (x ∈ y :: ys) as Hxin.
      { eapply (list_elem_of_filter (fun a => key a = key x)).
        rewrite <- Hcl, filter_cons, decide_True by done. apply list_elem_of_here. }
      assert (y ∈ x :: xs) as Hyin.
      { eapply (list_elem_of_filter (fun a => key a = key y)).
        rewrite Hcl, filter_cons, decide_True by done. apply list_elem_of_here. }
      apply elem_of_cons in Hxin as [->|Hxin]; [done|].
      apply elem_of_cons in Hyin as [->|Hyin]; [done|].
      rewrite Forall_forall in Hx, Hy.
      specialize (Hx _ Hyin). specialize (Hy _ Hxin). lia. }
    pose proof (Hcl (key x)) as Hhead.
    rewrite !filter_cons, decide_True in Hhead by done.
    rewrite (decide_True (P := key y = key x)) in Hhead by done.
    injection Hhead as <- Htail.
    f_equal. apply IH; [done|]. intros p. specialize (Hcl p).
    rewrite !filter_cons in Hcl. destruct (decide (key x = p)); [|done].
    by injection Hcl.
Qed.

Lemma stable_sort_unique (l r : list A) :
  StronglySorted (fun a b => key a >= key b) r ->
  (forall p, filter (fun a => key a = p) r = filter (fun a => key a = p) l) ->
  r = Js.sort descending l.
Proof.
  intros Hr Hcl. apply sorted_classes_unique; [done|apply sort_sorted|].
  intros p. by rewrite Hcl, sort_stable.
Qed.

End SortFacts.

(** ** Maps in insertion order *)

Section MapFacts.

Context {V : Type}.

Lemma map_get_set_eq (m : Js.Map V) (k : string) (v : V) :
  Js.map_get (Js.map_set m k v) k = Some v.
Proof.
  induction m as [|[k' v'] m IH]; simpl.
  - by rewrite decide_True.
  - destruct (decide (k' = k)) as [->|Hne]; simpl.
    + by rewrite decide_True.
    + by rewrite decide_False.
Qed.

Lemma map_get_set_ne (m : Js.Map V) (k k' : string) (v : V) :
  k <> k' -> Js.map_get (Js.map_set m k v) k' = Js.map_get m k'.
Proof.
  intros Hne. induction m as [|[k0 v0] m IH]; simpl.
  - by rewrite decide_False.
  - destruct (decide (k0 = k)) as [->|Hk]; simpl.
    + by rewrite !decide_False.
    + by rewrite IH.
Qed.

Lemma map_get_delete_eq (m : Js.Map V) (k : string) :
  Js.map_get (Js.map_delete m k) k = None.
Proof.
  unfold Js.map_delete. induction m as [|[k' v'] m IH]; [done|].
  rewrite filter_cons. simpl.
  destruct (decide (k' <> k)) as [Hne|Heq]; simpl; [|done].
  by rewrite decide_False.
Qed.

Lemma map_get_delete_ne (m : Js.Map V) (k k' : string) :
  k <> k' -> Js.map_get (Js.map_delete m k) k' = Js.map_get m k'.
Proof.
  intros Hne. unfold Js.map_delete. induction m as [|[k0 v0] m IH]; [done|].
  rewrite filter_cons. simpl.
  destruct (decide (k0 <> k)) as [Hk|Hk]; simpl.
  - by rewrite IH.
  - apply dec_stable in Hk as ->. by rewrite decide_False.
Qed.

Lemma map_delete_absent (m : Js.Map V) (k : string) :
  Js.map_get m k = None -> Js.map_delete m k = m.
Proof.
  unfold Js.map_delete. induction m as [|[k' v'] m IH]; [done|].
  intros Hg. simpl in Hg.
  destruct (decide (k' = k)) as [->|Hne]; [done|].
  rewrite filter_cons. simpl.
  rewrite decide_True by done. by rewrite IH.
Qed.

Lemma map_set_keys (m : Js.Map V) (k : string) (v : V) :
  Js.map_keys (Js.map_set m k v) =
  if decide (k ∈ Js.map_keys m) then Js.map_keys m else Js.map_keys m ++ [k].
Proof.
  unfold Js.map_keys. induction m as [|[k' v'] m IH]; cbn [Js.map_set].
  - case_decide as Hk; [by apply elem_of_nil in Hk|done].
  - destruct (decide (k' = k)) as [->|Hne]; rewrite !fmap_cons; cbn [fst].
    + clear IH. case_decide as Hk; [done|]. destruct Hk. apply list_elem_of_here.
    + rewrite IH. clear IH. destruct (decide (k ∈ m.*1)) as [Hin|Hnin].
      * case_decide as Hk; [done|]. destruct Hk. by apply list_elem_of_further.
      * case_decide as Hk; [|done].
        apply elem_of_cons in Hk as [Hk|Hk]; [congruence|done].
Qed.

Lemma map_set_keys_NoDup (m : Js.Map V) (k : string) (v : V) :
  NoDup (Js.map_keys m) -> NoDup (Js.map_keys (Js.map_set m k v)).
Proof.
  intros Hnd. rewrite map_set_keys. case_decide as Hk; [done|].
  apply NoDup_app. split; [done|]. split; [|apply NoDup_singleton].
  intros x Hx Hxk. apply list_elem_of_singleton in Hxk as ->. done.
Qed.

Lemma map_delete_keys_NoDup (m : Js.Map V) (k : string) :
  NoDup (Js.map_keys m) -> NoDup (Js.map_keys (Js.map_delete m k)).
Proof.
  unfold Js.map_keys, Js.map_delete. induction m as [|[k' v'] m IH]; [done|].
  rewrite filter_cons. simpl. intros Hnd. apply NoDup_cons in Hnd as [Hk Hnd].
  case_decide; [|by apply IH]. simpl. apply NoDup_cons. split; [|by apply IH].
  intros Hin. apply Hk. apply list_elem_of_fmap in Hin as (kv & -> & Hin).
  apply list_elem_of_filter in Hin as [_ Hin].
  apply list_elem_of_fmap. by exists kv.
Qed.


End MapFacts.

(** ** The model registry *)

Section RegistryFacts.

Context {Model : Type}.
Variable getCapabilities : Model -> Capabilities.

Implicit Types (reg : ModelRegistry Model) (id P : string) (m : Model)
  (options : Options).

Lemma chain_register reg id m options P :
  chain (register id m options reg) P =
  chain reg P ++
  (if decide (fallbackFor_or_null (opt_fallbackFor options) = Some P)
   then [id] else []).
Proof.
  unfold chain, register. cbn [fallbackFor].
  destruct (fallbackFor_or_null (opt_fallbackFor options)) as [primary|] eqn:Hf.
  - case_decide as Hd.
    + injection Hd as ->. cbn [fallbacks]. rewrite lookup_insert_eq.
      destruct (fallbacks reg !! P) as [ids|] eqn:Hl.
      * by rewrite Hl.
      * by rewrite lookup_insert_eq.
    + assert (primary <> P) by congruence.
      cbn [fallbacks]. rewrite lookup_insert_ne by done.
      destruct (fallbacks reg !! primary).
      * by rewrite app_nil_r.
      * rewrite lookup_insert_ne by done. by rewrite app_nil_r.
  - case_decide; [done|]. cbn [fallbacks]. by rewrite app_nil_r.
Qed.

Lemma models_register_get reg id m options :
  Js.map_get (models (register id m options reg)) id =
  Some {| model := m;
          priority := priority_or_default (opt_priority options);
          fallbackFor := fallbackFor_or_null (opt_fallbackFor options);
          enabled := enabled_unless_false (opt_enabled options) |}.
Proof.
  unfold register. simpl.
  destruct (fallbackFor_or_null (opt_fallbackFor options)); simpl;
    apply map_get_set_eq.
Qed.


(** C9: a falsy [options.priority] (absent or [0]) is stored as [1]; no call
    of [register] stores priority [0]; and registering with priority [0]
    leaves the registry in the state that registering with the default
    priority does, so the two rank alike in [getByCapability]. *)
Theorem register_falsy_priority_is_one reg id m (ff : option string)
    (en : option bool) (f : Filter) :
  (priority <$> Js.map_get (models (register id m (mkOptions None ff en) reg)) id
     = Some 1) /\
  (priority <$> Js.map_get (models (register id m (mkOptions (Some 0) ff en) reg)) id
     = Some 1) /\
  (forall options,
     priority <$> Js.map_get (models (register id m options reg)) id <> Some 0) /\
  register id m (mkOptions (Some 0) ff en) reg =
    register id m (mkOptions None ff en) reg /\
  getByCapability getCapabilities (register id m (mkOptions (Some 0) ff en) reg) f =
    getByCapability getCapabilities (register id m (mkOptions (Some 1) ff en) reg) f.
Proof.
  split; [by rewrite models_register_get|].
  split; [by rewrite models_register_get|].
  split.
  - intros options. rewrite models_register_get. simpl.
    destruct (opt_priority options) as [v|]; simpl; [|done].
    destruct (decide (v = 0)); [done|congruence].
  - split; reflexivity.
Qed.




(** Keys of [models] stay distinct, as in a [Map]. *)
Lemma register_keys_NoDup reg id m options :
  NoDup (list_ids reg) -> NoDup (list_ids (register id m options reg)).
Proof.
  unfold list_ids, register. cbn [fallbackFor].
  destruct (fallbackFor_or_null _); cbn [models]; apply map_set_keys_NoDup.
Qed.

Lemma unregister_keys_NoDup reg id :
  NoDup (list_ids reg) -> NoDup (list_ids (unregister id reg)).
Proof. unfold list_ids, unregister. cbn [models]. apply map_delete_keys_NoDup. Qed.

Lemma get_unregister reg id : get (unregister id reg) id = None.
Proof. unfold get, unregister. simpl. by rewrite map_get_delete_eq. Qed.

Lemma chain_unregister reg id P :
  chain (unregister id reg) P = Js.remove_first id (chain reg P).
Proof.
  unfold chain, unregister. simpl. rewrite lookup_fmap.
  destruct (fallbacks reg !! P); simpl; [done|].
  by rewrite remove_first_absent by apply not_elem_of_nil.
Qed.

(** [unregister] purges [id] from the chains in which it occurs once. *)
Lemma unregister_purges_single_entries reg id P :
  (count_occ String.eq_dec (chain reg P) id <= 1)%nat ->
  id ∉ chain (unregister id reg) P.
Proof.
  intros Hc. rewrite chain_unregister.
  apply (count_occ_zero_absent (eqA := String.eq_dec)).
  rewrite remove_first_count, decide_True by done. lia.
Qed.

(** [unregister] of an id that is neither registered nor in any chain
    changes nothing. *)
Lemma unregister_absent_noop reg id :
  Js.map_get (models reg) id = None ->
  (forall P, id ∉ chain reg P) ->
  unregister id reg = reg.
Proof.
  destruct reg as [ms fs]. unfold unregister, chain. cbn [models fallbacks].
  intros Hget Hchains. f_equal; [by apply map_delete_absent|].
  apply map_eq. intros P. rewrite lookup_fmap.
  specialize (Hchains P). destruct (fs !! P) as [ids|]; [|done].
  simpl in *. by rewrite remove_first_absent.
Qed.


End RegistryFacts.

(** ** The pipeline engine *)

Section EngineFacts.

Context {Input Output World Model Callback : Type}.
Context {eqCallback : EqDecision Callback}.
Variable analyze : Model -> Input -> gmap string Output -> World -> (Error + Output) * World.
Variable invoke : Callback -> Z -> Z -> string -> Status -> World -> option Error * World.
Variable now : World -> Z.

Local Abbreviation EngineState := (State Input Output World Model Callback).
Local Abbreviation analyzed input context :=
  (fun m : Model => @EvAnalyze Input Output Model Callback m input context).
Local Abbreviation notified step total msg status :=
  (fun cb : Callback => @EvProgress Input Output Model Callback cb step total msg status).

Implicit Types (s : EngineState) (reg : ModelRegistry Model)
  (eng : PipelineEngine Callback) (input : Input) (context : gmap string Output).

Lemma events_since_app s s' evs :
  trace s' = trace s ++ evs -> events_since s s' = evs.
Proof. unfold events_since. intros ->. by rewrite drop_app_length. Qed.

Lemma call_analyze_trace m input context s r s' :
  call_analyze analyze m input context s = (r, s') ->
  trace s' = trace s ++ [analyzed input context m].
Proof.
  unfold call_analyze. destruct (analyze _ _ _ _) as [r0 w'].
  by intros [= <- <-].
Qed.

Lemma call_callback_trace cb step total msg status s r s' :
  call_callback invoke cb step total msg status s = (r, s') ->
  trace s' = trace s ++ [notified step total msg status cb].
Proof.
  unfold call_callback. destruct (invoke _ _ _ _ _ _) as [r0 w'].
  by intros [= <- <-].
Qed.

(** *** [runWithFallback] *)

Lemma try_fallbacks_all_fail ms input context err s s' :
  all_fail analyze ms input context s s' ->
  try_fallbacks analyze ms input context err s = (inl err, s') /\
  trace s' = trace s ++ (analyzed input context <$> ms).
Proof.
  revert s. induction ms as [|m ms IH]; intros s; simpl.
  - intros ->. by rewrite app_nil_r.
  - intros (e & s1 & Hcall & Hrest). unfold try_catch. rewrite Hcall.
    destruct (IH _ Hrest) as [-> ->].
    split; [done|]. rewrite (call_analyze_trace _ _ _ _ _ _ Hcall).
    by rewrite <- app_assoc.
Qed.

Lemma try_fallbacks_first_success failed f rest input context err s s1 s2 out :
  all_fail analyze failed input context s s1 ->
  call_analyze analyze f input context s1 = (inr out, s2) ->
  try_fallbacks analyze (failed ++ f :: rest) input context err s = (inr out, s2) /\
  trace s2 = trace s ++ (analyzed input context <$> failed ++ [f]).
Proof.
  revert s. induction failed as [|m ms IH]; intros s; simpl.
  - intros -> Hcall. unfold try_catch. rewrite Hcall.
    split; [done|]. by apply call_analyze_trace in Hcall.
  - intros (e & s' & Hcall & Hrest) Hf. unfold try_catch. rewrite Hcall.
    destruct (IH _ Hrest Hf) as [-> ->].
    split; [done|]. rewrite (call_analyze_trace _ _ _ _ _ _ Hcall).
    by rewrite <- app_assoc.
Qed.

(** C1: with an enabled registration for [P], [runWithFallback P] returns
    the output of [P]'s [analyze] when it succeeds.  When it throws, the
    models of [P]'s fallback chain, as resolved by [getFallbacks], are called
    in chain order with the same input and context, and the output of the
    first that succeeds is returned, no later model being called.  When all
    of them throw, or there are none, the error thrown is the one [P]'s
    [analyze] threw. *)
Theorem runWithFallback_first_success_or_primary_error reg P m input context s :
  get reg P = Some m ->
  (forall out s1,
     call_analyze analyze m input context s = (inr out, s1) ->
     runWithFallback analyze reg P input context s = (inr out, s1) /\
     events_since s s1 = [analyzed input context m]) /\
  (forall e s1 failed f rest out s2 s3,
     call_analyze analyze m input context s = (inl e, s1) ->
     getFallbacks reg P = failed ++ f :: rest ->
     all_fail analyze failed input context s1 s2 ->
     call_analyze analyze f input context s2 = (inr out, s3) ->
     runWithFallback analyze reg P input context s = (inr out, s3) /\
     events_since s s3 = analyzed input context <$> m :: failed ++ [f]) /\
  (forall e s1 s2,
     call_analyze analyze m input context s = (inl e, s1) ->
     all_fail analyze (getFallbacks reg P) input context s1 s2 ->
     runWithFallback analyze reg P input context s = (inl e, s2) /\
     events_since s s2 = analyzed input context <$> m :: getFallbacks reg P).
Proof.
  intros Hget. unfold runWithFallback, try_catch. rewrite Hget.
  split; [|split].
  - intros out s1 Hcall. rewrite Hcall. split; [done|].
    apply events_since_app. by apply call_analyze_trace in Hcall.
  - intros e s1 failed f rest out s2 s3 Hcall Hchain Hfail Hf.
    rewrite Hcall, Hchain.
    destruct (try_fallbacks_first_success _ _ rest _ _ e _ _ _ _ Hfail Hf)
      as [-> Htr].
    split; [done|]. apply events_since_app.
    rewrite Htr, (call_analyze_trace _ _ _ _ _ _ Hcall).
    by rewrite <- app_assoc.
  - intros e s1 s2 Hcall Hfail. rewrite Hcall.
    destruct (try_fallbacks_all_fail _ _ _ e _ _ Hfail) as [-> Htr].
    split; [done|]. apply events_since_app.
    rewrite Htr, (call_analyze_trace _ _ _ _ _ _ Hcall).
    by rewrite <- app_assoc.
Qed.

(** Without an enabled registration for [P], [runWithFallback P] throws at
    once: no model is called and the fallback chain is not consulted. *)
Lemma runWithFallback_missing_primary reg P input context s :
  get reg P = None ->
  runWithFallback analyze reg P input context s =
    (inl (mkError ("Model not found: " +:+ P)), s).
Proof. intros Hget. unfold runWithFallback. by rewrite Hget. Qed.

(** *** Progress observers *)



(** An emission calls observers and nothing else. *)
Lemma forEach_only_notifies cbs step total msg status s r s' :
  forEach_callback invoke cbs step total msg status s = (r, s') ->
  exists evs, trace s' = trace s ++ evs /\
              Forall (fun ev => is_analyze ev = false) evs.
Proof.
  revert s. induction cbs as [|cb cbs IH]; intros s; simpl.
  - intros [= <- <-]. exists []. by rewrite app_nil_r.
  - unfold bind.
    destruct (call_callback invoke cb step total msg status s) as [[e|[]] s1] eqn:Hcall;
      pose proof (call_callback_trace _ _ _ _ _ _ _ _ Hcall) as Htr.
    + intros [= <- <-]. exists [notified step total msg status cb].
      split; [done|]. by constructor.
    + intros Hrest. destruct (IH _ Hrest) as (evs & -> & Hevs).
      exists (notified step total msg status cb :: evs).
      rewrite Htr, <- app_assoc. split; [done|]. by constructor.
Qed.


(** *** Stepping through a computation *)

Lemma bind_lift {L A B} (m : M EngineState A) (k : A -> M (L * EngineState) B)
    (l : L) s :
  bind (lift m) k (l, s) =
  match m s with
  | (inr a, s') => k a (l, s')
  | (inl e, s') => (inl e, (l, s'))
  end.
Proof. unfold bind, lift. simpl. by destruct (m s) as [[e|a] s']. Qed.

Lemma bind_Date_now {L B} (k : Z -> M (L * EngineState) B) (l : L) s :
  bind (Date_now now) k (l, s) = k (now (world s)) (l, s).
Proof. done. Qed.

Lemma bind_update {L B} (f : L -> L) (k : unit -> M (L * EngineState) B)
    (l : L) s :
  bind (update f) k (l, s) = k tt (f l, s).
Proof. done. Qed.

(** *** [executeImagePipeline] *)

Lemma executeImagePipeline_try_outcome eng reg image res0 s r res' s' :
  executeImagePipeline_try analyze invoke now eng reg image (res0, s) = (r, (res', s')) ->
  try_outcome analyze invoke now eng reg image res0 s r res' s'.
Proof.
  unfold executeImagePipeline_try.
  rewrite bind_lift.
  destruct (_emitProgress invoke eng 1 _ _ _ s) as [[e|[]] s1] eqn:H1;
    [intros [= <- <- <-]; by econstructor|].
  rewrite bind_Date_now, bind_lift.
  destruct (runWithFallback analyze reg "gemini-vision" _ _ s1) as [[e|d] s2] eqn:H2;
    [intros [= <- <- <-]; by econstructor|].
  rewrite bind_Date_now, bind_update, bind_lift.
  destruct (_emitProgress invoke eng 2 _ _ _ s2) as [[e|[]] s3] eqn:H3;
    [intros [= <- <- <-]; by econstructor|].
  rewrite bind_Date_now, bind_lift.
  destruct (runWithFallback analyze reg "gemini-reasoning" _ _ s3) as [[e|rep] s4] eqn:H4;
    [intros [= <- <- <-]; by econstructor|].
  rewrite bind_Date_now, bind_update, bind_lift.
  destruct (_emitProgress invoke eng steps_length _ _ _ s4) as [[e|[]] s5] eqn:H5;
    [intros [= <- <- <-]; by econstructor|].
  rewrite bind_Date_now, bind_update. unfold read. cbn [fst].
  intros [= <- <- <-]. by econstructor.
Qed.

Lemma executeImagePipeline_catch_cases eng err res s :
  (exists e s', _emitProgress invoke eng 0 steps_length (message err) St_error s = (inl e, s') /\
                executeImagePipeline_catch invoke now eng err (res, s) = (inl e, (res, s'))) \/
  (exists s', _emitProgress invoke eng 0 steps_length (message err) St_error s = (inr tt, s') /\
              let res' := complete (now (world s')) false (set_error err res) in
              executeImagePipeline_catch invoke now eng err (res, s) = (inr res', (res', s'))).
Proof.
  unfold executeImagePipeline_catch. rewrite bind_lift.
  destruct (_emitProgress invoke eng 0 _ _ _ s) as [[e|[]] s1] eqn:H1.
  - left. by exists e, s1.
  - right. exists s1. split; [done|]. by rewrite bind_update, bind_Date_now, bind_update.
Qed.

(** How a run of [executeImagePipeline] ends: the [try] block ends in one of
    its six ways; if it threw, the [catch] block either throws the error of
    an observer of the ['error'] event or returns the failed result. *)
Lemma executeImagePipeline_cases eng reg image s r s' :
  executeImagePipeline analyze invoke now eng reg image s = (r, s') ->
  let res0 := new_PipelineResult (now (world s)) in
  (exists res, r = inr res /\ try_outcome analyze invoke now eng reg image res0 s (inr res) res s') \/
  (exists err res1 s1,
     try_outcome analyze invoke now eng reg image res0 s (inl err) res1 s1 /\
     ((exists e, r = inl e /\
         _emitProgress invoke eng 0 steps_length (message err) St_error s1 = (inl e, s')) \/
      (r = inr (complete (now (world s')) false (set_error err res1)) /\
         _emitProgress invoke eng 0 steps_length (message err) St_error s1 = (inr tt, s')))).
Proof.
  intros Hrun res0. unfold executeImagePipeline, with_local, try_catch in Hrun.
  fold res0 in Hrun.
  destruct (executeImagePipeline_try _ _ _ _ _ _ (res0, s)) as [[err|res] [res1 s1]] eqn:Htry;
    apply executeImagePipeline_try_outcome in Htry.
  - right. exists err, res1, s1. split; [done|].
    destruct (executeImagePipeline_catch_cases eng err res1 s1)
      as [(e & s2 & Hemit & Hcatch)|(s2 & Hemit & Hcatch)];
      rewrite Hcatch in Hrun; cbn [snd] in Hrun; injection Hrun as <- <-.
    + left. by exists e.
    + by right.
  - left. exists res. cbn [snd] in Hrun. injection Hrun as <- <-.
    split; [done|]. inversion Htry; subst. done.
Qed.

Lemma try_outcome_steps_succeeded eng reg image res0 s r res1 s1 :
  try_outcome analyze invoke now eng reg image res0 s r res1 s1 ->
  Forall (fun rec => step_success rec = true /\ step_error rec = None) (steps res0) ->
  Forall (fun rec => step_success rec = true /\ step_error rec = None) (steps res1).
Proof.
  intros Hout H0. destruct Hout; simpl; rewrite ?Forall_app; repeat split;
    try done; by repeat constructor.
Qed.


Lemma try_outcome_times eng reg image res0 s r res1 s1 :
  try_outcome analyze invoke now eng reg image res0 s r res1 s1 ->
  startTime res1 = startTime res0 /\
  match r with
  | inl _ => True
  | inr res =>
      res = res1 /\ success res = true /\ error res = error res0 /\
      endTime res = Some (now (world s1))
  end.
Proof. intros Hout. by destruct Hout. Qed.

(** No run of [executeImagePipeline] leaves a failed step record:
    [addError] is never called. *)
Lemma executeImagePipeline_records_no_failed_step eng reg image s res s' :
  executeImagePipeline analyze invoke now eng reg image s = (inr res, s') ->
  Forall (fun rec => step_success rec = true /\ step_error rec = None) (steps res).
Proof.
  intros Hrun. apply executeImagePipeline_cases in Hrun.
  destruct Hrun as [(res' & [= <-] & Hout)
                   |(err & res1 & s1 & Hout & [(e & [=] & _)|([= ->] & _)])].
  - eapply try_outcome_steps_succeeded; [exact Hout|]. constructor.
  - simpl. eapply try_outcome_steps_succeeded; [exact Hout|]. constructor.
Qed.



End EngineFacts.

(** ** Subscribing and unsubscribing observers *)

Section ObserverFacts.

Context {Callback : Type} {eqCallback : EqDecision Callback}.

Implicit Types (callback : Callback) (this eng : PipelineEngine Callback).

Lemma progressCallbacks_unsubscribe callback this :
  progressCallbacks (unsubscribe callback this) =
  Js.remove_first callback (progressCallbacks this).
Proof.
  unfold unsubscribe, Js.remove_first. by case_bool_decide.
Qed.

Lemma unsubscribe_absent callback this :
  callback ∉ progressCallbacks this -> unsubscribe callback this = this.
Proof.
  intros Habs. unfold unsubscribe, Js.indexOf.
  rewrite indexOf_from_absent by done.
  by rewrite bool_decide_eq_false_2 by lia.
Qed.

(** C10: after [onProgress(callback)] has been called twice with the same
    function, the two unsubscribe functions returned behave alike: each call
    removes the first remaining occurrence of [callback] from the observer
    list, and nothing when there is none.  So calling one of them twice
    removes both registrations, and a second call is without effect exactly
    when [callback] was registered at most once. *)
Theorem unsubscribe_removes_first_occurrence callback eng :
  let eng1 := (onProgress callback eng).1 in
  let unsubscribe1 := (onProgress callback eng).2 in
  let eng2 := (onProgress callback eng1).1 in
  let unsubscribe2 := (onProgress callback eng1).2 in
  progressCallbacks eng2 = progressCallbacks eng ++ [callback; callback] /\
  (forall this, unsubscribe1 this = unsubscribe2 this) /\
  (forall this before after,
     progressCallbacks this = before ++ callback :: after ->
     callback ∉ before ->
     progressCallbacks (unsubscribe1 this) = before ++ after) /\
  (forall this, callback ∉ progressCallbacks this -> unsubscribe1 this = this) /\
  (forall this,
     count_occ eqCallback (progressCallbacks (unsubscribe1 this)) callback =
     pred (count_occ eqCallback (progressCallbacks this) callback)) /\
  (callback ∉ progressCallbacks eng -> unsubscribe1 (unsubscribe1 eng2) = eng) /\
  (forall this,
     unsubscribe1 (unsubscribe1 this) = unsubscribe1 this <->
     (count_occ eqCallback (progressCallbacks this) callback <= 1)%nat).
Proof.
  cbn [onProgress fst snd progressCallbacks].
  split; [by rewrite <- app_assoc|].
  split; [done|].
  split.
  { intros this before after Hl Hb.
    rewrite progressCallbacks_unsubscribe, Hl. by apply remove_first_split. }
  split; [apply unsubscribe_absent|].
  assert (forall this,
    count_occ eqCallback (progressCallbacks (unsubscribe callback this)) callback =
    pred (count_occ eqCallback (progressCallbacks this) callback)) as Hcount.
  { intros this. rewrite progressCallbacks_unsubscribe, remove_first_count.
    by rewrite decide_True. }
  split; [exact Hcount|].
  split.
  - intros Habs. destruct eng as [l]. simpl in Habs.
    assert (forall l', unsubscribe callback {| progressCallbacks := l ++ callback :: l' |}
                       = {| progressCallbacks := l ++ l' |}) as Hstep.
    { intros l'. unfold unsubscribe, Js.remove_first.
      pose proof (remove_first_split callback l l' Habs) as Hrm.
      unfold Js.remove_first in Hrm. cbn [progressCallbacks].
      destruct (bool_decide (Js.indexOf (l ++ callback :: l') callback > -1));
        by rewrite Hrm. }
    cbn [progressCallbacks]. rewrite <- app_assoc. cbn [app].
    rewrite (Hstep [callback]), (Hstep []). by rewrite app_nil_r.
  - intros this. split.
    + intros Heq. pose proof (Hcount (unsubscribe callback this)) as H2.
      rewrite Heq, Hcount in H2. lia.
    + intros Hle. apply unsubscribe_absent.
      apply (count_occ_zero_absent (eqA := eqCallback)). rewrite Hcount. lia.
Qed.

End ObserverFacts.

(** ** The properties on concrete registries, observers and runs *)

Section Examples.

Import Fixture.

Local Abbreviation analyzed m := (@EvAnalyze unit Z stub_model stub_observer m () ∅).
Local Abbreviation notified cb step total msg status :=
  (@EvProgress unit Z stub_model stub_observer cb step total msg status).

(** The primary and the first fallback throw, the second fallback returns. *)
Lemma runWithFallback_second_fallback_witness :
  get registry_chain "p" = Some (Throws "p down") /\
  runWithFallback analyze registry_chain "p" () ∅ state0 =
    (inr 2, {| world := 3;
               trace := [analyzed (Throws "p down"); analyzed (Throws "f1 down");
                         analyzed (Returns 2)] |}) /\
  events_since state0
    {| world := 3;
       trace := [analyzed (Throws "p down"); analyzed (Throws "f1 down");
                 analyzed (Returns 2)] |} =
    [analyzed (Throws "p down"); analyzed (Throws "f1 down"); analyzed (Returns 2)].
Proof.
  split; [reflexivity|].
  refine (proj1 (proj2 (runWithFallback_first_success_or_primary_error
                          analyze registry_chain "p" (Throws "p down") () ∅ state0 _))
            (mkError "p down") {| world := 1; trace := [analyzed (Throws "p down")] |}
            [Throws "f1 down"] (Returns 2) [] 2
            {| world := 2;
               trace := [analyzed (Throws "p down"); analyzed (Throws "f1 down")] |}
            _ _ _ _ _).
  - reflexivity.
  - reflexivity.
  - reflexivity.
  - simpl. eexists _, _. split; reflexivity.
  - reflexivity.
Defined.


(** C7, evaluated: with ["f"] registered twice as a fallback of ["p"],
    [unregister "f"] removes the registration but leaves ["f"] in the chain
    of ["p"]; and a second [unregister "f"], of an id that is then absent,
    still changes the registry. *)
Theorem unregister_leaves_duplicate_entry :
  let reg := unregister "f" registry_twice in
  get reg "f" = None /\
  Js.map_get (models reg) "f" = None /\
  chain reg "p" = ["f"] /\
  "f" ∈ chain reg "p" /\
  chain (unregister "f" reg) "p" = [] /\
  unregister "f" reg <> reg.
Proof.
  intros reg. split; [reflexivity|]. split; [reflexivity|].
  split; [reflexivity|]. split; [apply list_elem_of_here|].
  split; [reflexivity|].
  intros Heq. apply (f_equal (fun r => chain r "p")) in Heq.
  discriminate Heq.
Qed.








(** C2, evaluated: vision returns [7], reasoning throws and has no
    fallbacks, no observer is registered.  The result has [success = false],
    the top-level error and only the vision output, but its only step record
    is the successful vision step: the failed step is not recorded. *)
Theorem executeImagePipeline_step2_failure_unrecorded :
  exists res s',
    executeImagePipeline analyze invoke now new_PipelineEngine registry_step2_fails ()
      state0 = (inr res, s') /\
    success res = false /\
    error res = Some (mkError "reasoning down") /\
    outputs res = {[ "vision" := 7 ]} /\
    steps res = [ {| step_name := "vision"; step_duration := 1;
                     step_success := true; step_error := None |} ] /\
    filter (fun rec => step_success rec = false) (steps res) = [].
Proof. eexists _, _. repeat split. Qed.

Lemma unsubscribe_removes_first_occurrence_witness :
  (Quiet 0 ∉ progressCallbacks (@new_PipelineEngine stub_observer)) /\
  let twice := (onProgress (Quiet 0) (onProgress (Quiet 0) new_PipelineEngine).1) in
  twice.2 (twice.2 twice.1) = new_PipelineEngine.
Proof.
  split; [apply not_elem_of_nil|].
  apply (proj1 (proj2 (proj2 (proj2 (proj2 (proj2
           (unsubscribe_removes_first_occurrence (Quiet 0) new_PipelineEngine))))))).
  apply not_elem_of_nil.
Defined.

End Examples.

(** * Further properties of the registry *)

Section ArrayFacts2.

Context {A : Type} {eqA : EqDecision A}.

Lemma remove_first_filter_ne (x : A) (l : list A) :
  filter (fun y => y <> x) (Js.remove_first x l) = filter (fun y => y <> x) l.
Proof.
  induction l as [|z l IH].
  - by rewrite remove_first_absent by apply not_elem_of_nil.
  - destruct (decide (z = x)) as [->|Hne].
    + rewrite remove_first_head, filter_cons. by rewrite decide_False by (by intros []).
    + rewrite remove_first_skip by done. rewrite !filter_cons, IH. done.
Qed.

Lemma remove_first_comm (x y : A) (l : list A) :
  Js.remove_first x (Js.remove_first y l) = Js.remove_first y (Js.remove_first x l).
Proof.
  destruct (decide (x = y)) as [->|Hxy]; [done|].
  induction l as [|z l IH].
  - by rewrite !remove_first_absent by apply not_elem_of_nil.
  - destruct (decide (z = x)) as [->|Hzx].
    + rewrite remove_first_head, (remove_first_skip y x) by done.
      by rewrite remove_first_head.
    + destruct (decide (z = y)) as [->|Hzy].
      * rewrite remove_first_head, (remove_first_skip x y) by done.
        by rewrite remove_first_head.
      * rewrite (remove_first_skip y z), (remove_first_skip x z) by done.
        rewrite (remove_first_skip x z), (remove_first_skip y z) by done.
        by rewrite IH.
Qed.

Lemma omap_cons_eq {B} (f : A -> option B) (z : A) (l : list A) :
  omap f (z :: l) = match f z with Some y => y :: omap f l | None => omap f l end.
Proof. done. Qed.

Lemma omap_filter_ne {B} (f : A -> option B) (x : A) (l : list A) :
  f x = None -> omap f (filter (fun y => y <> x) l) = omap f l.
Proof.
  intros Hx. induction l as [|z l IH]; [done|].
  rewrite filter_cons. destruct (decide (z <> x)) as [Hz|Hz].
  - by rewrite !omap_cons_eq, IH.
  - apply dec_stable in Hz as ->. by rewrite omap_cons_eq, Hx.
Qed.

Lemma omap_remove_first {B} (f : A -> option B) (x : A) (l : list A) :
  f x = None -> omap f (Js.remove_first x l) = omap f (filter (fun y => y <> x) l).
Proof.
  intros Hx. rewrite omap_filter_ne by done.
  induction l as [|z l IH].
  - by rewrite remove_first_absent by apply not_elem_of_nil.
  - destruct (decide (z = x)) as [->|Hne].
    + by rewrite remove_first_head, omap_cons_eq, Hx.
    + rewrite remove_first_skip by done. by rewrite !omap_cons_eq, IH.
Qed.

Lemma length_filter_ne_NoDup (x : A) (l : list A) :
  NoDup l ->
  length (filter (fun y => y <> x) l) =
  if decide (x ∈ l) then pred (length l) else length l.
Proof.
  induction l as [|k ks IH]; intros Hnd.
  - by destruct (decide (x ∈ [])).
  - apply NoDup_cons in Hnd as [Hk Hnd]. specialize (IH Hnd).
    rewrite filter_cons. destruct (decide (k = x)) as [->|Hne].
    + rewrite decide_False by (by intros []).
      rewrite (decide_True (P := x ∈ x :: ks)) by apply list_elem_of_here.
      destruct (decide (x ∈ ks)); [done|]. by rewrite IH.
    + rewrite decide_True by done. cbn [length]. rewrite IH.
      destruct (decide (x ∈ ks)) as [Hin|Hnin].
      * rewrite (decide_True (P := x ∈ k :: ks)) by (by apply list_elem_of_further).
        destruct ks; [by apply elem_of_nil in Hin|done].
      * rewrite (decide_False (P := x ∈ k :: ks)); [done|].
        apply not_elem_of_cons. split; [congruence|done].
Qed.

End ArrayFacts2.

Section MapFacts2.

Context {V : Type}.

Lemma map_delete_keys (m : Js.Map V) (k : string) :
  Js.map_keys (Js.map_delete m k) = filter (fun k' => k' <> k) (Js.map_keys m).
Proof.
  unfold Js.map_keys, Js.map_delete. induction m as [|[k' v'] m IH]; [done|].
  rewrite fmap_cons, !filter_cons. cbn [fst].
  destruct (decide (k' <> k)); [rewrite fmap_cons|]; by rewrite IH.
Qed.

Lemma map_delete_comm (m : Js.Map V) (k k' : string) :
  Js.map_delete (Js.map_delete m k) k' = Js.map_delete (Js.map_delete m k') k.
Proof.
  unfold Js.map_delete. induction m as [|[k0 v0] m IH]; [done|].
  rewrite !filter_cons. cbn [fst].
  destruct (decide (k0 <> k)), (decide (k0 <> k'));
    rewrite ?filter_cons; cbn [fst];
    rewrite ?decide_True, ?decide_False by done; by rewrite IH.
Qed.

Lemma map_get_Some_key (m : Js.Map V) (k : string) (v : V) :
  Js.map_get m k = Some v -> (k, v) ∈ m.
Proof.
  induction m as [|[k' v'] m IH]; [done|]. simpl.
  destruct (decide (k' = k)) as [->|Hne].
  - intros [= ->]. apply list_elem_of_here.
  - intros Hg. apply list_elem_of_further. by apply IH.
Qed.

Lemma map_get_None_key (m : Js.Map V) (k : string) :
  Js.map_get m k = None <-> k ∉ Js.map_keys m.
Proof.
  unfold Js.map_keys. induction m as [|[k' v'] m IH]; simpl.
  - split; [intros _; apply not_elem_of_nil|done].
  - destruct (decide (k' = k)) as [->|Hne].
    + split; [done|]. intros Hn. destruct Hn. apply list_elem_of_here.
    + rewrite IH, not_elem_of_cons. split; [intros Hk; split; [congruence|done]|].
      by intros [_ Hk].
Qed.

End MapFacts2.

Section MoreRegistryFacts.

Context {Model : Type}.

Implicit Types (reg : ModelRegistry Model) (id P : string) (m : Model)
  (options : Options).

Lemma models_register reg id m options :
  models (register id m options reg) =
  Js.map_set (models reg) id
    {| model := m;
       priority := priority_or_default (opt_priority options);
       fallbackFor := fallbackFor_or_null (opt_fallbackFor options);
       enabled := enabled_unless_false (opt_enabled options) |}.
Proof.
  unfold register. cbn [fallbackFor].
  by destruct (fallbackFor_or_null (opt_fallbackFor options)).
Qed.

(** X1: after [register(id, m, options)], [get(id)] returns [m], unless
    [options.enabled] is [false], in which case it returns nothing; what [get]
    returns for any other id is unchanged. *)
Theorem get_register reg id m options id' :
  get (register id m options reg) id' =
  if decide (id' = id)
  then (if enabled_unless_false (opt_enabled options) then Some m else None)
  else get reg id'.
Proof.
  unfold get. rewrite models_register. destruct (decide (id' = id)) as [->|Hne].
  - by rewrite map_get_set_eq.
  - by rewrite map_get_set_ne by done.
Qed.

(** X2: [register] of an id that is not registered appends it to [list()] and
    raises [count] by one; re-registering an id leaves [list()], the position
    of the id included, and [count] as they were.  A registration with
    [enabled: false] is listed and counted like any other. *)
Theorem list_count_register reg id m options :
  list_ids (register id m options reg) =
    (if decide (id ∈ list_ids reg) then list_ids reg else list_ids reg ++ [id]) /\
  count (register id m options reg) =
    (if decide (id ∈ list_ids reg) then count reg else S (count reg)) /\
  count reg = length (list_ids reg).
Proof.
  assert (forall r : ModelRegistry Model, count r = length (list_ids r)) as Hc.
  { intros r. unfold count, list_ids, Js.map_keys. by rewrite length_fmap. }
  split; [|split; [|apply Hc]].
  - unfold list_ids. rewrite models_register. apply map_set_keys.
  - rewrite !Hc. unfold list_ids. rewrite models_register, map_set_keys.
    unfold list_ids. destruct (decide (id ∈ Js.map_keys (models reg))); [done|].
    rewrite length_app. simpl. lia.
Qed.

(** X3: [unregister(id)] leaves every other id as it was: [get] of another
    id is unchanged, [list()] loses [id] and keeps the order of the rest, the
    entries of other ids stay in every chain in their order, and, the keys
    of [models] being distinct, [count] drops by one exactly when [id] was
    registered. *)
Theorem unregister_leaves_others reg id :
  (forall id', id' <> id -> get (unregister id reg) id' = get reg id') /\
  list_ids (unregister id reg) = filter (fun id' => id' <> id) (list_ids reg) /\
  (forall P, filter (fun id' => id' <> id) (chain (unregister id reg) P) =
             filter (fun id' => id' <> id) (chain reg P)) /\
  (NoDup (list_ids reg) ->
   count (unregister id reg) =
   if decide (id ∈ list_ids reg) then pred (count reg) else count reg).
Proof.
  split; [|split; [|split]].
  - intros id' Hne. unfold get, unregister. cbn [models].
    by rewrite map_get_delete_ne by done.
  - unfold list_ids, unregister. cbn [models]. apply map_delete_keys.
  - intros P. rewrite chain_unregister. apply remove_first_filter_ne.
  - intros Hnd. unfold count, unregister. cbn [models].
    rewrite <- (length_fmap fst (Js.map_delete _ _)), <- (length_fmap fst (models reg)).
    fold (Js.map_keys (Js.map_delete (models reg) id)).
    rewrite map_delete_keys. by apply length_filter_ne_NoDup.
Qed.

(** X4: the order of two [unregister] calls does not matter. *)
Theorem unregister_comm reg id id' :
  unregister id (unregister id' reg) = unregister id' (unregister id reg).
Proof.
  unfold unregister. cbn [models fallbacks]. f_equal.
  - apply map_delete_comm.
  - rewrite <- !map_fmap_compose. apply map_fmap_ext.
    intros P ids _. simpl. apply remove_first_comm.
Qed.

(** X5: after [unregister(id)], [getFallbacks(P)] is what it was with every
    entry of [id] left out, also when the chain of [P] still holds an entry
    of [id]: a fallback that is no longer registered is never returned. *)
Theorem getFallbacks_unregister reg id P :
  getFallbacks (unregister id reg) P =
  omap (get reg) (filter (fun id' => id' <> id) (chain reg P)).
Proof.
  unfold getFallbacks. rewrite chain_unregister.
  rewrite omap_remove_first by apply get_unregister.
  apply list_omap_ext. apply Forall2_same_length_lookup_2; [done|].
  intros i x y Hx Hy. rewrite Hx in Hy. injection Hy as <-.
  apply list_elem_of_lookup_2, list_elem_of_filter in Hx as [Hne _].
  unfold get, unregister. cbn [models]. by rewrite map_get_delete_ne by done.
Qed.

End MoreRegistryFacts.

Section ReachableFacts.

Context {Model : Type}.

Implicit Types (reg : ModelRegistry Model) (id P : string) (m : Model)
  (options : Options).

Lemma map_get_delete {V} (ms : Js.Map V) (k k' : string) :
  Js.map_get (Js.map_delete ms k) k' =
  if decide (k' = k) then None else Js.map_get ms k'.
Proof.
  destruct (decide (k' = k)) as [->|Hne].
  - apply map_get_delete_eq.
  - by apply map_get_delete_ne.
Qed.

Lemma fallbacks_register_keys reg id m options P :
  is_Some (fallbacks (register id m options reg) !! P) ->
  is_Some (fallbacks reg !! P) \/
  fallbackFor_or_null (opt_fallbackFor options) = Some P.
Proof.
  unfold register. cbn [fallbackFor].
  destruct (fallbackFor_or_null (opt_fallbackFor options)) as [primary|]; [|by left].
  cbn [fallbacks]. destruct (decide (primary = P)) as [->|Hne]; [by right|].
  rewrite lookup_insert_ne by done.
  destruct (fallbacks reg !! primary); [by left|].
  rewrite lookup_insert_ne by done. by left.
Qed.

Lemma fallbackFor_or_null_nonempty (f : option string) :
  fallbackFor_or_null f <> Some "".
Proof.
  destruct f as [s|]; simpl; [|done].
  destruct (decide (s = "")); congruence.
Qed.

Lemma priority_or_default_nonzero (p : option Z) : priority_or_default p <> 0.
Proof.
  destruct p as [v|]; simpl; [|done]. by destruct (decide (v = 0)).
Qed.

(** X6: every registry built from [new ModelRegistry()] by [register] and
    [unregister] calls keeps the keys of [models] distinct, has no chain under
    the empty id, stores no priority [0] and no empty [fallbackFor], and has
    every registered id whose registration names a primary [P] in the chain
    of [P]; so [getFallbacks(P)] returns the model of every enabled
    registration that names [P]. *)
Theorem reachable_invariants reg :
  reachable reg ->
  NoDup (list_ids reg) /\
  (forall P, is_Some (fallbacks reg !! P) -> P <> "") /\
  (forall id r, Js.map_get (models reg) id = Some r ->
     priority r <> 0 /\ fallbackFor r <> Some "") /\
  (forall id r P, Js.map_get (models reg) id = Some r ->
     fallbackFor r = Some P -> id ∈ chain reg P) /\
  (forall id r P, Js.map_get (models reg) id = Some r ->
     fallbackFor r = Some P -> enabled r = true ->
     model r ∈ getFallbacks reg P).
Proof.
  intros Hreach.
  assert (NoDup (list_ids reg) /\
    (forall P, is_Some (fallbacks reg !! P) -> P <> "") /\
    (forall id r, Js.map_get (models reg) id = Some r ->
       priority r <> 0 /\ fallbackFor r <> Some "") /\
    (forall id r P, Js.map_get (models reg) id = Some r ->
       fallbackFor r = Some P -> id ∈ chain reg P)) as (Hnd & Hkeys & Hvals & Hchain).
  { induction Hreach as [|id m options reg Hreach (Hnd & Hkeys & Hvals & Hchain)
                         |id reg Hreach (Hnd & Hkeys & Hvals & Hchain)].
    - split; [constructor|]. split; [|split].
      + intros P [x Hx]. unfold empty_registry in Hx. cbn [fallbacks] in Hx.
        by rewrite lookup_empty in Hx.
      + intros id r Hr. done.
      + intros id r P Hr. done.
    - split; [by apply register_keys_NoDup|]. split; [|split].
      + intros P HP. apply fallbacks_register_keys in HP as [HP|HP]; [by apply Hkeys|].
        intros ->. by apply fallbackFor_or_null_nonempty in HP.
      + intros id' r. rewrite models_register.
        destruct (decide (id' = id)) as [->|Hne].
        * rewrite map_get_set_eq. intros [= <-]. simpl.
          split; [apply priority_or_default_nonzero|apply fallbackFor_or_null_nonempty].
        * rewrite map_get_set_ne by done. apply Hvals.
      + intros id' r P. rewrite models_register, chain_register.
        destruct (decide (id' = id)) as [->|Hne].
        * rewrite map_get_set_eq. intros [= <-]. simpl. intros ->.
          rewrite decide_True by done. apply elem_of_app. right. apply list_elem_of_here.
        * rewrite map_get_set_ne by done. intros Hr Hf.
          apply elem_of_app. left. by eapply Hchain.
    - split; [by apply unregister_keys_NoDup|]. split; [|split].
      + intros P. unfold unregister. cbn [fallbacks]. rewrite lookup_fmap.
        intros HP. apply fmap_is_Some in HP. by apply Hkeys.
      + intros id' r. unfold unregister. cbn [models]. rewrite map_get_delete.
        destruct (decide (id' = id)); [done|]. apply Hvals.
      + intros id' r P. unfold unregister at 1. cbn [models]. rewrite map_get_delete.
        destruct (decide (id' = id)) as [|Hne]; [done|]. intros Hr Hf.
        pose proof (Hchain _ _ _ Hr Hf) as Hin.
        rewrite chain_unregister.
        assert (id' ∈ filter (fun y => y <> id) (Js.remove_first id (chain reg P))) as Hin'.
        { rewrite remove_first_filter_ne. by apply list_elem_of_filter. }
        by apply list_elem_of_filter in Hin' as [_ Hin']. }
  split; [done|]. split; [done|]. split; [done|]. split; [done|].
  intros id r P Hr Hf He. unfold getFallbacks. apply list_elem_of_omap.
  exists id. split; [by eapply Hchain|]. unfold get. by rewrite Hr, He.
Qed.

End ReachableFacts.

Section HealthCheckFacts.

Context {World Model : Type}.
Variable model_healthCheck : Model -> World -> (Error + bool) * World.

Implicit Types (s : ProbeState World Model) (results : gmap string HealthStatus).


(** One turn of the loop: the model is probed once and its entry is written,
    whether the probe returned or threw. *)
Lemma healthCheck_entries_cons id (registration : Registration Model) rest results s :
  healthCheck_entries model_healthCheck ((id, registration) :: rest) results s =
  healthCheck_entries model_healthCheck rest
    (JsObject.set results id
       (status_of (model_healthCheck (model registration) (p_world s)).1
          (enabled registration)))
    {| p_world := (model_healthCheck (model registration) (p_world s)).2;
       p_probed := p_probed s ++ [model registration] |}.
Proof.
  cbn [healthCheck_entries]. unfold bind at 1, try_catch, bind, call_healthCheck, ret.
  by destruct (model_healthCheck (model registration) (p_world s)) as [[e|b] w'].
Qed.



End HealthCheckFacts.

(** * Further properties of the pipeline engine *)

Section MoreEngineFacts.

Context {Input Output World Model Callback : Type}.
Context {eqCallback : EqDecision Callback}.
Variable analyze : Model -> Input -> gmap string Output -> World -> (Error + Output) * World.
Variable invoke : Callback -> Z -> Z -> string -> Status -> World -> option Error * World.
Variable now : World -> Z.

Local Abbreviation EngineState := (State Input Output World Model Callback).
Local Abbreviation analyzed input context :=
  (fun m : Model => @EvAnalyze Input Output Model Callback m input context).
Local Abbreviation notified step total msg status :=
  (fun cb : Callback => @EvProgress Input Output Model Callback cb step total msg status).

Implicit Types (s : EngineState) (reg : ModelRegistry Model)
  (eng : PipelineEngine Callback) (input : Input) (context : gmap string Output).

(** *** The calls [runWithFallback] makes *)

Lemma try_fallbacks_shape fbs input context err s r s' :
  try_fallbacks analyze fbs input context err s = (r, s') ->
  exists k, (k <= length fbs)%nat /\
    trace s' = trace s ++ (analyzed input context <$> take k fbs) /\
    match r with
    | inl e => e = err /\ k = length fbs
    | inr out =>
        exists f sa, last (take k fbs) = Some f /\
                     call_analyze analyze f input context sa = (inr out, s')
    end.
Proof.
  revert s. induction fbs as [|f fbs IH]; intros s; simpl.
  - intros [= <- <-]. exists 0%nat. split; [done|]. by rewrite app_nil_r.
  - unfold try_catch.
    destruct (call_analyze analyze f input context s) as [[e|out] s1] eqn:Hcall;
      pose proof (call_analyze_trace _ _ _ _ _ _ _ Hcall) as Htr.
    + intros Hrest. destruct (IH _ Hrest) as (k & Hk & Htr' & Hr).
      exists (S k). split; [lia|]. split.
      { rewrite Htr', Htr, <- app_assoc. done. }
      destruct r as [e'|out]; [destruct Hr as [-> ->]; done|].
      destruct Hr as (f' & sa & Hlast & Hf'). exists f', sa. split; [|done].
      simpl. destruct (take k fbs); [done|]. done.
    + intros [= <- <-]. exists 1%nat. split; [lia|].
      cbn [take fmap list_fmap last]. rewrite take_0. split; [done|].
      by exists f, s.
Qed.

Lemma runWithFallback_shape reg P m input context s r s' :
  get reg P = Some m ->
  runWithFallback analyze reg P input context s = (r, s') ->
  exists k, (k <= length (getFallbacks reg P))%nat /\
    trace s' = trace s ++
      (analyzed input context <$> m :: take k (getFallbacks reg P)) /\
    match r with
    | inl e =>
        k = length (getFallbacks reg P) /\
        (call_analyze analyze m input context s).1 = inl e
    | inr out =>
        exists f sa, last (m :: take k (getFallbacks reg P)) = Some f /\
                     call_analyze analyze f input context sa = (inr out, s')
    end.
Proof.
  intros Hget. unfold runWithFallback, try_catch. rewrite Hget.
  destruct (call_analyze analyze m input context s) as [[e|out] s1] eqn:Hcall;
    pose proof (call_analyze_trace _ _ _ _ _ _ _ Hcall) as Htr.
  - intros Hrest. apply try_fallbacks_shape in Hrest as (k & Hk & Htr' & Hr).
    exists k. split; [done|]. split.
    { by rewrite Htr', Htr, <- app_assoc. }
    destruct r as [e'|out]; [by destruct Hr as [-> ->]|].
    destruct Hr as (f & sa & Hlast & Hf). exists f, sa. split; [|done].
    cbn [last]. destruct (take k (getFallbacks reg P)); done.
  - intros [= <- <-]. exists 0%nat. split; [lia|]. rewrite take_0.
    split; [done|]. by exists m, s.
Qed.

(** X8: [runWithFallback(P)] throws "Model not found" at once, calling
    nothing, when [P] has no enabled registration (missing or disabled, also
    when fallbacks are registered for it).  Otherwise it calls the primary
    once and then the first [k] fallbacks, each once and in chain order, and
    nothing else: at most one call per candidate.  When it returns, the
    output is that of the model called last; when it throws, every fallback
    was called and the error is the primary's. *)
Theorem runWithFallback_call_discipline reg P input context s r s' :
  runWithFallback analyze reg P input context s = (r, s') ->
  match get reg P with
  | None => r = inl (mkError ("Model not found: " +:+ P)) /\ s' = s
  | Some m =>
      exists k, (k <= length (getFallbacks reg P))%nat /\
        events_since s s' =
          (analyzed input context <$> m :: take k (getFallbacks reg P)) /\
        match r with
        | inl e =>
            k = length (getFallbacks reg P) /\
            (call_analyze analyze m input context s).1 = inl e
        | inr out =>
            exists f sa, last (m :: take k (getFallbacks reg P)) = Some f /\
                         call_analyze analyze f input context sa = (inr out, s')
        end
  end.
Proof.
  intros Hrun. destruct (get reg P) as [m|] eqn:Hget.
  - destruct (runWithFallback_shape _ _ _ _ _ _ _ _ Hget Hrun) as (k & Hk & Htr & Hr).
    exists k. split; [done|]. split; [by apply events_since_app|done].
  - unfold runWithFallback in Hrun. rewrite Hget in Hrun. by injection Hrun as <- <-.
Qed.



(** *** The calls a pipeline run makes *)

Lemma only_calls_refl (P : Event Input Output Model Callback -> Prop) s :
  only_calls P s s.
Proof. exists []. by rewrite app_nil_r. Qed.



Lemma emitProgress_only_calls eng step total msg status s r s' :
  _emitProgress invoke eng step total msg status s = (r, s') ->
  only_calls (fun ev => is_analyze ev = false) s s'.
Proof. intros Hemit. by apply forEach_only_notifies in Hemit. Qed.





(** *** What a returned result holds *)

Lemma try_outcome_complete eng reg image res0 s r res1 s1 :
  try_outcome analyze invoke now eng reg image res0 s r res1 s1 ->
  executeImagePipeline_try analyze invoke now eng reg image (res0, s) = (r, (res1, s1)).
Proof.
  intros Hout. unfold executeImagePipeline_try.
  destruct Hout as [e sa He|sa e sb He Hr|sa d sb e sc He Hr He2
                    |sa d sb sc e sd He Hr He2 Hr2|sa d sb sc rep sd e se He Hr He2 Hr2 He3
                    |sa d sb sc rep sd se He Hr He2 Hr2 He3];
    rewrite bind_lift, He; [done|..];
    rewrite bind_Date_now, bind_lift, Hr; [done|..];
    rewrite bind_Date_now, bind_update, bind_lift, He2; [done|..];
    rewrite bind_Date_now, bind_lift, Hr2; [done|..];
    rewrite bind_Date_now, bind_update, bind_lift, He3; [done|].
  by rewrite bind_Date_now, bind_update.
Qed.

Lemma executeImagePipeline_failed_run eng reg image s err res1 s1 s2 :
  try_outcome analyze invoke now eng reg image (new_PipelineResult (now (world s)))
    s (inl err) res1 s1 ->
  _emitProgress invoke eng 0 steps_length (message err) St_error s1 = (inr tt, s2) ->
  executeImagePipeline analyze invoke now eng reg image s =
    (inr (complete (now (world s2)) false (set_error err res1)), s2).
Proof.
  intros Hout Hemit. unfold executeImagePipeline, with_local, try_catch.
  rewrite (try_outcome_complete _ _ _ _ _ _ _ _ Hout).
  unfold executeImagePipeline_catch.
  rewrite bind_lift, Hemit. by rewrite bind_update, bind_Date_now, bind_update.
Qed.

Lemma outputs_recorded (res : PipelineResult Output) (names : list string) :
  (outputs res = ∅ /\ names = []) \/
  (exists d, outputs res = <["vision" := d]> ∅ /\ names = ["vision"]) \/
  (exists d rep, outputs res = <["reasoning" := rep]> (<["vision" := d]> ∅) /\
                 names = ["vision"; "reasoning"]) ->
  forall name, is_Some (outputs res !! name) <-> name ∈ names.
Proof.
  intros [[-> ->]|[(d & -> & ->)|(d & rep & -> & ->)]] name.
  - rewrite lookup_empty. split; [by intros []|]. intros Hin. by apply elem_of_nil in Hin.
  - rewrite lookup_insert_is_Some, lookup_empty, list_elem_of_singleton.
    split; [intros [->|[_ []]]; done|]. intros ->. by left.
  - rewrite !lookup_insert_is_Some, lookup_empty, !elem_of_cons.
    split.
    + intros [->|[_ [->|[_ []]]]]; [by right; left|by left| done].
    + intros [->|[->|Hin]]; [right; split; [done|by left]|by left|].
      by apply elem_of_nil in Hin.
Qed.

Lemma try_outcome_recorded eng reg image t s r res1 s1 :
  try_outcome analyze invoke now eng reg image (new_PipelineResult t) s r res1 s1 ->
  ((outputs res1 = ∅ /\ step_name <$> steps res1 = []) \/
   (exists d, outputs res1 = <["vision" := d]> ∅ /\
              step_name <$> steps res1 = ["vision"]) \/
   (exists d rep, outputs res1 = <["reasoning" := rep]> (<["vision" := d]> ∅) /\
                  step_name <$> steps res1 = ["vision"; "reasoning"])) /\
  match r with
  | inl _ => True
  | inr _ => step_name <$> steps res1 = ["vision"; "reasoning"]
  end.
Proof.
  intros Hout. destruct Hout; simpl; (split; [|done]); eauto 6.
Qed.

(** X10: a result returned by [executeImagePipeline] holds an output for
    exactly the steps it has a record of; the records are those of the steps
    run, in order: none, [vision], or [vision] and [reasoning], all of them
    successes; [success = true] comes with both records and no error,
    [success = false] with the error set. *)
Theorem executeImagePipeline_result_shape eng reg image s res s' :
  executeImagePipeline analyze invoke now eng reg image s = (inr res, s') ->
  (forall name, is_Some (outputs res !! name) <-> name ∈ (step_name <$> steps res)) /\
  (step_name <$> steps res = [] \/ step_name <$> steps res = ["vision"] \/
   step_name <$> steps res = ["vision"; "reasoning"]) /\
  Forall (fun rec => step_success rec = true /\ step_error rec = None) (steps res) /\
  (success res = true ->
   step_name <$> steps res = ["vision"; "reasoning"] /\ error res = None) /\
  (success res = false -> is_Some (error res)).
Proof.
  intros Hrun.
  pose proof (executeImagePipeline_records_no_failed_step _ _ _ _ _ _ _ _ _ Hrun) as Hsteps.
  apply executeImagePipeline_cases in Hrun.
  destruct Hrun as [(res' & [= <-] & Hout)
                   |(err & res1 & s1 & Hout & [(e & [=] & _)|([= ->] & Hemit)])].
  - destruct (try_outcome_recorded _ _ _ _ _ _ _ _ Hout) as [Hrec Hnames].
    destruct (try_outcome_times _ _ _ _ _ _ _ _ _ _ _ Hout) as (_ & _ & Hs & He & _).
    split; [by apply outputs_recorded|]. split.
    { destruct Hrec as [[_ ->]|[(d & _ & ->)|(d & rep & _ & ->)]]; eauto. }
    split; [done|]. split; [done|]. by rewrite Hs.
  - destruct (try_outcome_recorded _ _ _ _ _ _ _ _ Hout) as [Hrec _].
    cbn [complete set_error outputs steps success error].
    split; [by apply outputs_recorded|]. split.
    { destruct Hrec as [[_ ->]|[(d & _ & ->)|(d & rep & _ & ->)]]; eauto. }
    split; [done|]. split; [done|]. by eauto.
Qed.

(** X11: when both steps have succeeded and an observer throws on the
    closing ['success'] event, the run is reported as failed: the result has
    [success = false] and the observer's error, although it holds both
    outputs and both step records. *)
Theorem executeImagePipeline_success_event_raises
    eng reg image s s1 d s2 s3 rep s4 e s5 s6 :
  _emitProgress invoke eng 1 steps_length "Scanning image..." St_loading s = (inr tt, s1) ->
  runWithFallback analyze reg "gemini-vision" image ∅ s1 = (inr d, s2) ->
  _emitProgress invoke eng 2 steps_length "Analyzing safety..." St_loading s2 = (inr tt, s3) ->
  runWithFallback analyze reg "gemini-reasoning" image {[ "detections" := d ]} s3
    = (inr rep, s4) ->
  _emitProgress invoke eng steps_length steps_length "Analysis complete" St_success s4
    = (inl e, s5) ->
  _emitProgress invoke eng 0 steps_length (message e) St_error s5 = (inr tt, s6) ->
  exists res,
    executeImagePipeline analyze invoke now eng reg image s = (inr res, s6) /\
    success res = false /\ error res = Some e /\
    outputs res !! "vision" = Some d /\ outputs res !! "reasoning" = Some rep /\
    step_name <$> steps res = ["vision"; "reasoning"] /\
    Forall (fun rec => step_success rec = true) (steps res).
Proof.
  intros He1 Hr1 He2 Hr2 He3 He4.
  eexists. split.
  { eapply executeImagePipeline_failed_run; [|exact He4].
    by eapply Ends_success_raised. }
  simpl. split; [done|]. split; [done|].
  split; [by rewrite lookup_insert_ne, lookup_insert_eq|].
  split; [by rewrite lookup_insert_eq|]. split; [done|]. by repeat constructor.
Qed.


(** *** The events delivered to observers that do not throw *)

Lemma forEach_returns cbs step total msg status s :
  (forall cb step total msg status w,
     cb ∈ cbs -> (invoke cb step total msg status w).1 = None) ->
  exists s', forEach_callback invoke cbs step total msg status s = (inr tt, s') /\
             trace s' = trace s ++ (notified step total msg status <$> cbs).
Proof.
  revert s. induction cbs as [|cb cbs IH]; intros s Hq; simpl.
  - exists s. by rewrite app_nil_r.
  - unfold bind, call_callback at 1.
    pose proof (Hq cb step total msg status (world s) (list_elem_of_here _ _)) as Hcb.
    destruct (invoke cb step total msg status (world s)) as [r w'].
    simpl in Hcb. subst r.
    edestruct IH as (s' & -> & Htr).
    { intros. apply Hq. by apply list_elem_of_further. }
    exists s'. split; [done|]. rewrite Htr. cbn [trace]. by rewrite <- app_assoc.
Qed.


Lemma filter_notified (cbs : list Callback) step total msg status :
  filter (fun ev => is_analyze ev = false) (notified step total msg status <$> cbs) =
  (notified step total msg status <$> cbs).
Proof.
  induction cbs as [|cb cbs IH]; [done|].
  rewrite fmap_cons, filter_cons. cbn [is_analyze].
  rewrite decide_True by done. by rewrite IH.
Qed.

Lemma broadcast_one (cbs : list Callback) step total msg status :
  @broadcast Input Output Model Callback cbs [(step, total, msg, status)] =
  (notified step total msg status <$> cbs).
Proof. unfold broadcast. cbn. by rewrite app_nil_r. Qed.

Lemma emitProgress_delivered eng step total msg status s :
  (forall cb step total msg status w,
     cb ∈ progressCallbacks eng -> (invoke cb step total msg status w).1 = None) ->
  exists s', _emitProgress invoke eng step total msg status s = (inr tt, s') /\
             delivered (progressCallbacks eng) [(step, total, msg, status)] s s'.
Proof.
  intros Hq. unfold _emitProgress.
  destruct (forEach_returns (progressCallbacks eng) step total msg status s Hq)
    as (s' & Hrun & Htr).
  exists s'. split; [done|]. eexists. split; [exact Htr|].
  by rewrite filter_notified, broadcast_one.
Qed.



(** X13: with observers that do not throw, a pipeline whose vision model has
    no enabled registration returns a failed result with the error "Model
    not found: gemini-vision", no step record and no output, without calling
    any model; and when the vision step has produced [d] and the reasoning
    model has no enabled registration, the result is failed with the error
    "Model not found: gemini-reasoning" and keeps the vision output and
    its record. *)
Theorem executeImagePipeline_missing_model eng reg image s :
  (forall cb step total msg status w,
     cb ∈ progressCallbacks eng -> (invoke cb step total msg status w).1 = None) ->
  (get reg "gemini-vision" = None ->
   exists res s',
     executeImagePipeline analyze invoke now eng reg image s = (inr res, s') /\
     success res = false /\
     error res = Some (mkError "Model not found: gemini-vision") /\
     steps res = [] /\ outputs res = ∅ /\
     Forall (fun ev => is_analyze ev = false) (events_since s s')) /\
  (forall s1 d s2,
     _emitProgress invoke eng 1 steps_length "Scanning image..." St_loading s = (inr tt, s1) ->
     runWithFallback analyze reg "gemini-vision" image ∅ s1 = (inr d, s2) ->
     get reg "gemini-reasoning" = None ->
     exists res s',
       executeImagePipeline analyze invoke now eng reg image s = (inr res, s') /\
       success res = false /\
       error res = Some (mkError "Model not found: gemini-reasoning") /\
       step_name <$> steps res = ["vision"] /\
       outputs res = {[ "vision" := d ]}).
Proof.
  intros Hq. split.
  - intros Hget.
    destruct (emitProgress_delivered eng 1 steps_length "Scanning image..." St_loading
                s Hq) as (s1 & He1 & _).
    destruct (emitProgress_delivered eng 0 steps_length
                "Model not found: gemini-vision" St_error s1 Hq) as (s2 & He2 & _).
    eexists _, s2. split.
    { eapply executeImagePipeline_failed_run.
      - eapply Ends_vision_failed; [exact He1|].
        by apply runWithFallback_missing_primary.
      - exact He2. }
    cbn. do 4 (split; [done|]).
    apply emitProgress_only_calls in He1 as (v1 & H1 & F1).
    apply emitProgress_only_calls in He2 as (v2 & H2 & F2).
    rewrite (events_since_app s s2 (v1 ++ v2)).
    + by apply Forall_app.
    + by rewrite H2, H1, app_assoc.
  - intros s1 d s2 He1 Hr1 Hget.
    destruct (emitProgress_delivered eng 2 steps_length "Analyzing safety..." St_loading
                s2 Hq) as (s3 & He2 & _).
    destruct (emitProgress_delivered eng 0 steps_length
                "Model not found: gemini-reasoning" St_error s3 Hq) as (s4 & He3 & _).
    eexists _, s4. split.
    { eapply executeImagePipeline_failed_run.
      - eapply Ends_reasoning_failed; [exact He1|exact Hr1|exact He2|].
        by apply runWithFallback_missing_primary.
      - exact He3. }
    cbn. by repeat split.
Qed.

End MoreEngineFacts.

(** * The image pipeline *)

Section StepFacts.

Context {Σ L A B : Type}.

Lemma bind_lift_step (m : M Σ A) (k : A -> M (L * Σ) B) (l : L) (s : Σ) :
  bind (lift m) k (l, s) =
  match m s with
  | (inr a, s') => k a (l, s')
  | (inl e, s') => (inl e, (l, s'))
  end.
Proof. unfold bind, lift. simpl. by destruct (m s) as [[e|a] s']. Qed.

Lemma bind_update_step (f : L -> L) (k : unit -> M (L * Σ) B) (l : L) (s : Σ) :
  bind (update f) k (l, s) = k tt (f l, s).
Proof. done. Qed.

Lemma bind_read_step (k : L -> M (L * Σ) B) (l : L) (s : Σ) :
  bind read k (l, s) = k l (l, s).
Proof. done. Qed.

End StepFacts.

Section ImagePipelineFacts.

Context {Input Output World Model Callback : Type}.
Variable analyze : Model -> Input -> gmap string Output -> World -> (Error + Output) * World.
Variable invoke : Callback -> Z -> Z -> string -> option Status -> World -> option Error * World.
Variable engine_invoke : Callback -> Z -> Z -> string -> Status -> World -> option Error * World.
Variable now : World -> Z.

Local Abbreviation IpSt := (IpState Input Output World Model Callback).
Local Abbreviation EngineState := (State Input Output World Model Callback).

Implicit Types (s : IpSt) (reg : ModelRegistry Model) (image : Input)
  (onProgress : option Callback).

Lemma bind_ip_Date_now {L' B'} (k : Z -> M (L' * IpSt) B') (l : L') s :
  bind (ip_Date_now now) k (l, s) = k (now (ip_world s)) (l, s).
Proof. done. Qed.





(** *** Stepping through [execute] *)

Lemma lift_step {L' A'} (m : M IpSt A') (l : L') s :
  lift m (l, s) = match m s with (r, s') => (r, (l, s')) end.
Proof. done. Qed.

Lemma read_step {L'} (l : L') s : @read IpSt L' (l, s) = (inr l, (l, s)).
Proof. done. Qed.

Lemma throw_step {Σ' A'} (e : Error) (x : Σ') : @throw Σ' A' e x = (inl e, x).
Proof. done. Qed.

Lemma ret_step {Σ' A'} (a : A') (x : Σ') : @ret Σ' A' a x = (inr a, x).
Proof. done. Qed.

Ltac ip_step :=
  first [ rewrite bind_lift_step | rewrite bind_ip_Date_now | rewrite bind_update_step
        | rewrite bind_read_step | rewrite lift_step | rewrite read_step
        | rewrite throw_step | rewrite ret_step ].

Ltac ip_case :=
  match goal with
  | |- context [invoke ?c ?a ?b ?m ?st ?w] =>
      destruct (invoke c a b m st w) as [[?|] ?] eqn:?
  | |- context [analyze ?m ?i ?c ?w] =>
      destruct (analyze m i c w) as [[?|?] ?] eqn:?
  | |- context [get ?r ?k] => destruct (get r k) as [?|] eqn:?
  end.

Ltac ip_run :=
  repeat first [ ip_step | progress cbv beta iota
               | progress cbn [ip_world ip_trace fst snd ipr_startTime]
               | ip_case ].

Lemma both_steps_recorded (a b : IpStep Output) :
  is_Some ((<["analyze" := b]> (<["detect" := a]> ∅) : gmap string (IpStep Output)) !! "detect") /\
  is_Some ((<["analyze" := b]> (<["detect" := a]> ∅) : gmap string (IpStep Output)) !! "analyze").
Proof.
  split; [|by rewrite lookup_insert_eq].
  rewrite lookup_insert_ne by done. by rewrite lookup_insert_eq.
Qed.

Ltac ip_leaf :=
  intros [= <- <-]; eexists;
  split; [first [rewrite <- ?app_assoc; reflexivity|symmetry; apply app_nil_r]|];
  split;
  [ first [ by left
          | right; left; eexists; split; reflexivity
          | right; right; eexists _, _, _; split; [|split]; reflexivity ]
  | first [ match goal with
            | H : invoke _ 0 _ _ _ _ = (Some _, _) |- _ =>
                eexists _, _, _; split; [reflexivity|exact (f_equal fst H)]
            end
          | split; [reflexivity|];
            first [ left; cbn; split; [done|]; split; [done|];
                    split; [apply both_steps_recorded|];
                    split; [apply both_steps_recorded|by eexists]
                  | right; cbn; split; [done|by eexists] ] ] ].

(** How a call of [execute] ends, and the calls it makes. *)
Lemma ip_execute_master reg image onProgress s r s' :
  ip_execute analyze invoke now reg image onProgress s = (r, s') ->
  exists evs, ip_trace s' = ip_trace s ++ evs /\
    (filter (fun ev => ip_is_analyze ev = true) evs = [] \/
     (exists mv, get reg "gemini-vision" = Some mv /\
        filter (fun ev => ip_is_analyze ev = true) evs = [IpAnalyze mv image ∅]) \/
     (exists mv mr d,
        get reg "gemini-vision" = Some mv /\ get reg "gemini-reasoning" = Some mr /\
        filter (fun ev => ip_is_analyze ev = true) evs =
          [IpAnalyze mv image ∅; IpAnalyze mr image {[ "detections" := d ]}])) /\
    match r with
    | inl e =>
        exists cb err w, onProgress = Some cb /\
          (invoke cb 0 ip_steps_length (message err) (Some St_error) w).1 = Some e
    | inr results =>
        ipr_startTime results = now (ip_world s) /\
        ((ipr_success results = true /\ ipr_error results = None /\
          is_Some (ipr_steps results !! "detect") /\
          is_Some (ipr_steps results !! "analyze") /\
          is_Some (ipr_duration results)) \/
         (ipr_success results = false /\ is_Some (ipr_error results)))
    end.
Proof.
  unfold ip_execute, with_local, ip_execute_try, ip_execute_catch.
  unfold bind at 1, try_catch.
  destruct onProgress as [cb|]; unfold ip_onProgress, ip_call_analyze;
    ip_run; ip_leaf.
Qed.


(** X15: [ImagePipeline.execute] never uses a fallback: whatever is
    registered, the model calls of one run are at most two, first the model
    [get] returns for ["gemini-vision"], on the image and the empty context,
    then the model [get] returns for ["gemini-reasoning"], on the image and
    a context holding the detections. *)
Theorem ip_execute_calls_no_fallback reg image onProgress s r s' :
  ip_execute analyze invoke now reg image onProgress s = (r, s') ->
  exists evs, ip_trace s' = ip_trace s ++ evs /\
    (filter (fun ev => ip_is_analyze ev = true) evs = [] \/
     (exists mv, get reg "gemini-vision" = Some mv /\
        filter (fun ev => ip_is_analyze ev = true) evs = [IpAnalyze mv image ∅]) \/
     (exists mv mr d,
        get reg "gemini-vision" = Some mv /\ get reg "gemini-reasoning" = Some mr /\
        filter (fun ev => ip_is_analyze ev = true) evs =
          [IpAnalyze mv image ∅; IpAnalyze mr image {[ "detections" := d ]}])).
Proof.
  intros Hrun. apply ip_execute_master in Hrun as (evs & Htr & Hcalls & _).
  by exists evs.
Qed.


End ImagePipelineFacts.

(** * Configuration and the Gemini models *)

Section ConfigFacts.

Import Config.

Implicit Types (storage : Storage).

Lemma get_key_insert_eq key value storage :
  get_key key (<[key := value]> storage) = value.
Proof.
  unfold get_key. rewrite lookup_insert_eq. by destruct (decide (value = "")).
Qed.

Lemma get_key_insert_ne key key' value storage :
  key <> key' -> get_key key' (<[key := value]> storage) = get_key key' storage.
Proof. intros Hne. unfold get_key. by rewrite lookup_insert_ne. Qed.

(** X17: a key written through [Config.keys] is the key read back, and
    writing one key leaves the other as it was; once both keys have been
    set to non-empty strings [validateConfig()] reports a valid
    configuration, whatever the storage held before. *)
Theorem config_keys_roundtrip storage (v r : string) :
  vision (set_vision v storage) = v /\
  reasoning (set_reasoning r storage) = r /\
  reasoning (set_vision v storage) = reasoning storage /\
  vision (set_reasoning r storage) = vision storage /\
  (v <> "" -> r <> "" ->
   validateConfig (set_reasoning r (set_vision v storage)) =
     {| valid := true; issues := [] |}).
Proof.
  unfold vision, reasoning, set_vision, set_reasoning.
  split; [apply get_key_insert_eq|]. split; [apply get_key_insert_eq|].
  split; [by apply get_key_insert_ne|]. split; [by apply get_key_insert_ne|].
  intros Hv Hr. unfold validateConfig, vision, reasoning, not_str.
  rewrite get_key_insert_eq.
  rewrite get_key_insert_ne, get_key_insert_eq by done.
  by rewrite (bool_decide_eq_false_2 _ Hr), (bool_decide_eq_false_2 _ Hv).
Qed.

(** X18: [validateConfig()] is valid exactly when both keys are
    non-empty, and exactly when it lists no issue.  Its issues are the
    messages of the errors that [initialize()] of the two Gemini models would
    throw, the vision one first; a model whose [initialize()] does not throw
    ends initialized and its [healthCheck()] returns [true], and
    [healthCheck()] returns [false] for a model whose [initialize()]
    throws. *)
Theorem validateConfig_matches_models storage :
  (valid (validateConfig storage) = true <->
   vision storage <> "" /\ reasoning storage <> "") /\
  (valid (validateConfig storage) = true <-> issues (validateConfig storage) = []) /\
  issues (validateConfig storage) =
    omap (fun k => match Gemini.initialize (Gemini.new k) storage with
                   | inl e => Some (message e)
                   | inr _ => None
                   end) [Gemini.Vision; Gemini.Reasoning] /\
  (forall this,
     match Gemini.initialize this storage with
     | inl e => message e ∈ issues (validateConfig storage) /\
                (Gemini.healthCheck this storage).1 = inr false
     | inr this' => Gemini.initialized this' = true /\
                    Gemini.class this' = Gemini.class this /\
                    (Gemini.healthCheck this storage).1 = inr true
     end).
Proof.
  unfold validateConfig, Gemini.initialize, Gemini.healthCheck, Gemini.new, not_str.
  cbn [Gemini.class Gemini.key fst valid issues].
  split; [|split; [|split]].
  - destruct (bool_decide_reflect (vision storage = "")) as [Hv|Hv],
             (bool_decide_reflect (reasoning storage = "")) as [Hr|Hr]; cbn;
      (split; [intros Hvalid; first [done|by split]|try by intros [? ?]]).
  - destruct (bool_decide_reflect (vision storage = "")) as [Hv|Hv],
             (bool_decide_reflect (reasoning storage = "")) as [Hr|Hr]; by cbn.
  - cbn.
    destruct (bool_decide_reflect (vision storage = "")) as [Hv|Hv],
             (bool_decide_reflect (reasoning storage = "")) as [Hr|Hr]; by cbn.
  - intros [[|] ini]; cbn [Gemini.class Gemini.key];
      destruct (bool_decide_reflect (vision storage = "")) as [Hv|Hv],
               (bool_decide_reflect (reasoning storage = "")) as [Hr|Hr]; cbn;
      repeat split; try done;
      first [apply list_elem_of_here|apply list_elem_of_further, list_elem_of_here].
Qed.

End ConfigFacts.

(** * The application *)

Section GeminiFacts.

Import Config.

(** X19: on the registry that [registerModels()] fills, [healthCheck()]
    reports exactly the two Gemini models, each enabled and healthy exactly
    when its key is non-empty, probing the vision model first and leaving
    the storage as it was; every model is reported healthy exactly when
    [validateConfig()] is valid. *)
Theorem gemini_healthCheck_report (storage : Storage) (probed : list Gemini.instance) :
  exists results,
    healthCheck Gemini.healthCheck (Gemini.registerModels empty_registry)
      {| p_world := storage; p_probed := probed |} =
      (inr results,
       {| p_world := storage;
          p_probed := probed ++ [Gemini.new Gemini.Vision; Gemini.new Gemini.Reasoning] |}) /\
    results !! "gemini-vision" =
      Some {| hs_healthy := negb (not_str (vision storage)); hs_enabled := true;
              hs_error := None |} /\
    results !! "gemini-reasoning" =
      Some {| hs_healthy := negb (not_str (reasoning storage)); hs_enabled := true;
              hs_error := None |} /\
    (forall id, id <> "gemini-vision" -> id <> "gemini-reasoning" -> results !! id = None) /\
    ((forall id status, results !! id = Some status -> hs_healthy status = true) <->
     valid (validateConfig storage) = true).
Proof.
  eexists. split.
  { unfold healthCheck, Gemini.registerModels. rewrite !models_register.
    cbn [Js.map_set models empty_registry]. rewrite decide_False by done.
    rewrite !healthCheck_entries_cons. cbn [healthCheck_entries ret].
    cbn [Gemini.healthCheck status_of fst snd model enabled p_world p_probed
         enabled_unless_false opt_enabled Gemini.key Gemini.class Gemini.new].
    unfold JsObject.set. rewrite !decide_False by done.
    by rewrite <- app_assoc. }
  split; [by rewrite lookup_insert_ne, lookup_insert_eq|].
  split; [by rewrite lookup_insert_eq|].
  split.
  { intros id Hv Hr. by rewrite !lookup_insert_ne, lookup_empty. }
  unfold validateConfig, not_str. split.
  - intros Hall.
    pose proof (Hall "gemini-vision" _ ltac:(by rewrite lookup_insert_ne, lookup_insert_eq)) as Hv.
    pose proof (Hall "gemini-reasoning" _ ltac:(by rewrite lookup_insert_eq)) as Hr.
    cbn [hs_healthy] in Hv, Hr. unfold not_str in Hv, Hr.
    apply negb_true_iff in Hv, Hr. rewrite Hv. rewrite Hr. done.
  - intros Hvalid id status.
    destruct (bool_decide (vision storage = "")) eqn:Hv,
             (bool_decide (reasoning storage = "")) eqn:Hr; try done.
    destruct (decide (id = "gemini-reasoning")) as [->|Hne].
    { rewrite lookup_insert_eq. by intros [= <-]. }
    rewrite lookup_insert_ne by done.
    destruct (decide (id = "gemini-vision")) as [->|Hne'].
    { rewrite lookup_insert_eq. by intros [= <-]. }
    by rewrite lookup_insert_ne, lookup_empty.
Qed.

End GeminiFacts.

Section AppFacts.

Context {Input Output World Model Callback : Type}.
Context {eqCallback : EqDecision Callback}.
Variable analyze : Model -> Input -> gmap string Output -> World -> (Error + Output) * World.
Variable invoke : Callback -> Z -> Z -> string -> Status -> World -> option Error * World.
Variable now : World -> Z.
Variable ui : UiCall Input Output -> World -> option Error * World.
Variable truthy : Output -> bool.

Local Abbreviation EngineState := (State Input Output World Model Callback).

Implicit Types (s : EngineState) (reg : ModelRegistry Model)
  (engine : PipelineEngine Callback) (image : Input) (app : AppState Input Output)
  (callback : Callback).

(** X20: once a run of the pipeline has returned a result, the [duration]
    read from it no longer depends on the clock: it is the time between the
    start and the end of the run, provided the clock did not read [0] at the
    end. *)
Theorem executeImagePipeline_duration engine reg image s res s' :
  executeImagePipeline analyze invoke now engine reg image s = (inr res, s') ->
  now (world s') <> 0 ->
  forall clock, duration res clock = now (world s') - now (world s).
Proof.
  intros Hrun Hnz clock. apply executeImagePipeline_cases in Hrun.
  unfold duration.
  destruct Hrun as [(res' & [= <-] & Hout)
                   |(err & res1 & s1 & Hout & [(e & [=] & _)|([= ->] & Hemit)])].
  - destruct (try_outcome_times _ _ _ _ _ _ _ _ _ _ _ Hout) as (-> & _ & _ & _ & ->).
    by rewrite decide_False.
  - destruct (try_outcome_times _ _ _ _ _ _ _ _ _ _ _ Hout) as (Hst & _).
    cbn. rewrite Hst. by rewrite decide_False.
Qed.

Lemma unsubscribe_onProgress callback engine :
  callback ∉ progressCallbacks engine ->
  (onProgress callback engine).2 (onProgress callback engine).1 = engine.
Proof.
  intros Hfresh. destruct engine as [l]. cbn [onProgress fst snd progressCallbacks] in *.
  unfold unsubscribe. cbn [progressCallbacks].
  pose proof (remove_first_split callback l [] Hfresh) as Hrm.
  unfold Js.remove_first in Hrm.
  destruct (bool_decide (Js.indexOf (l ++ [callback]) callback > -1));
    rewrite Hrm; by rewrite app_nil_r.
Qed.

(** X21: [runAnalysis] does nothing while another analysis is in progress;
    otherwise it always ends with [isProcessing] reset to [false] and the
    image recorded as [currentImage], whatever failed on the way. *)
Theorem runAnalysis_guard callback reg image app engine s :
  (isProcessing app = true ->
   runAnalysis analyze invoke now ui truthy callback reg image app engine s
     = (app, engine, s)) /\
  (isProcessing app = false ->
   isProcessing
     (runAnalysis analyze invoke now ui truthy callback reg image app engine s).1.1
     = false /\
   currentImage
     (runAnalysis analyze invoke now ui truthy callback reg image app engine s).1.1
     = Some image).
Proof.
  unfold runAnalysis. split; intros ->; [done|].
  destruct (ui_call ui (ShowLoading true) s) as [[e|] s1]; [done|].
  destruct (executeImagePipeline _ _ _ _ _ _ s1) as [[e|result] s2]; [done|].
  destruct (success result).
  - destruct (ui_call ui (RenderDetections _ _) s2) as [[e|] s3]; [done|].
    by destruct (ui_call ui (DisplayReport _) s3) as [r s4].
  - by destruct (ui_call ui (UpdateProgress _ _ _ _) s2) as [r s3].
Qed.

(** X22: [runAnalysis] leaves the observer list of the engine as it found
    it, and records the result as [lastResult], whenever the pipeline call
    returns; when the pipeline call throws, the callback it had subscribed
    stays subscribed and [lastResult] is unchanged.  Here [callback], the
    function the call creates, is not yet among the observers. *)
Theorem runAnalysis_observers callback reg image app engine s :
  callback ∉ progressCallbacks engine ->
  isProcessing app = false ->
  let out := runAnalysis analyze invoke now ui truthy callback reg image app engine s in
  (out.1.2 = engine /\
   ((lastResult out.1.1 = lastResult app /\
     exists e, (ui_call ui (ShowLoading true) s).1 = Some e) \/
    (exists s1 result s2,
       executeImagePipeline analyze invoke now (onProgress callback engine).1 reg image s1
         = (inr result, s2) /\
       lastResult out.1.1 = Some result))) \/
  (progressCallbacks out.1.2 = progressCallbacks engine ++ [callback] /\
   lastResult out.1.1 = lastResult app /\
   exists s1 e,
     executeImagePipeline analyze invoke now (onProgress callback engine).1 reg image s1
       = (inl e, out.2)).
Proof.
  intros Hfresh Hidle out. subst out. unfold runAnalysis. rewrite Hidle.
  destruct (ui_call ui (ShowLoading true) s) as [[e|] s1] eqn:Hshow.
  { left. split; [done|]. left. split; [done|]. by exists e. }
  destruct (executeImagePipeline analyze invoke now (onProgress callback engine).1
              reg image s1) as [[e|result] s2] eqn:Hrun.
  { right. cbn. split; [done|]. split; [done|]. by exists s1, e. }
  left. rewrite (unsubscribe_onProgress _ _ Hfresh).
  destruct (success result).
  - destruct (ui_call ui (RenderDetections _ _) s2) as [[e|] s3].
    + split; [done|]. right. by exists s1, result, s2.
    + destruct (ui_call ui (DisplayReport _) s3) as [r s4].
      split; [done|]. right. by exists s1, result, s2.
  - destruct (ui_call ui (UpdateProgress _ _ _ _) s2) as [r s3].
    split; [done|]. right. by exists s1, result, s2.
Qed.

End AppFacts.

(** * The further properties on concrete inputs *)

Section Examples2.

Import Fixture Stubs.

Lemma unregister_leaves_others_witness :
  NoDup (list_ids registry_chain) /\
  count (unregister "f1" registry_chain) = 2%nat /\
  get (unregister "f1" registry_chain) "f2" = Some (Returns 2).
Proof.
  assert (NoDup (list_ids registry_chain)) as Hnd.
  { apply (bool_decide_unpack _). vm_compute. exact I. }
  split; [exact Hnd|]. split.
  - exact (proj2 (proj2 (proj2 (unregister_leaves_others registry_chain "f1"))) Hnd).
  - rewrite (proj1 (unregister_leaves_others registry_chain "f1") "f2"); [reflexivity|].
    discriminate.
Defined.

Lemma reachable_invariants_witness :
  NoDup (list_ids registry_chain) /\
  Returns 2 ∈ getFallbacks registry_chain "p".
Proof.
  assert (reachable registry_chain) as Hreach.
  { unfold registry_chain. repeat apply reachable_register. apply reachable_empty. }
  destruct (reachable_invariants registry_chain Hreach) as (Hnd & _ & _ & _ & Hfb).
  split; [exact Hnd|].
  refine (Hfb "f2" {| model := Returns 2; priority := 1; fallbackFor := Some "p";
                      enabled := true |} "p" _ _ _); reflexivity.
Defined.


Lemma runWithFallback_call_discipline_witness :
  exists k, (k <= length (getFallbacks registry_chain "p"))%nat /\
    events_since state0
      {| world := 3;
         trace := [EvAnalyze (Throws "p down") () ∅; EvAnalyze (Throws "f1 down") () ∅;
                   EvAnalyze (Returns 2) () ∅] |} =
      ((fun m => EvAnalyze m () ∅) <$>
         Throws "p down" :: take k (getFallbacks registry_chain "p")).
Proof.
  destruct (runWithFallback_call_discipline analyze registry_chain "p" () ∅ state0
              (inr 2)
              {| world := 3;
                 trace := [EvAnalyze (Throws "p down") () ∅;
                           EvAnalyze (Throws "f1 down") () ∅;
                           EvAnalyze (Returns 2) () ∅] |}
              eq_refl) as (k & Hk & Hev & _).
  exists k. split; [exact Hk|exact Hev].
Defined.


Lemma executeImagePipeline_result_shape_witness :
  exists res s',
    executeImagePipeline analyze invoke now engine_quiet registry_step2_fails () state0
      = (inr res, s') /\
    (forall name, is_Some (outputs res !! name) <-> name ∈ (step_name <$> steps res)) /\
    (success res = false -> is_Some (error res)).
Proof.
  eexists _, _. split; [reflexivity|].
  destruct (executeImagePipeline_result_shape analyze invoke now engine_quiet
              registry_step2_fails () state0 _ _ eq_refl) as (Hout & _ & _ & _ & Herr).
  split; [exact Hout|exact Herr].
Defined.

Lemma executeImagePipeline_success_event_raises_witness :
  exists s6 res,
    executeImagePipeline analyze picky_invoke now engine_picky registry_both_return ()
      picky_state0 = (inr res, s6) /\
    success res = false /\ error res = Some (mkError "observer failed") /\
    outputs res !! "vision" = Some 7 /\ outputs res !! "reasoning" = Some 9 /\
    step_name <$> steps res = ["vision"; "reasoning"] /\
    Forall (fun rec => step_success rec = true) (steps res).
Proof.
  eexists.
  eapply (executeImagePipeline_success_event_raises analyze picky_invoke now
            engine_picky registry_both_return () picky_state0); reflexivity.
Defined.


Lemma executeImagePipeline_missing_model_witness :
  exists res s',
    executeImagePipeline analyze invoke now engine_quiet empty_registry () state0
      = (inr res, s') /\
    error res = Some (mkError "Model not found: gemini-vision").
Proof.
  assert (forall (cb : stub_observer) step total msg status w,
            cb ∈ progressCallbacks engine_quiet ->
            (invoke cb step total msg status w).1 = None) as Hquiet.
  { intros cb step total msg status w Hin.
    apply list_elem_of_singleton in Hin. rewrite Hin. reflexivity. }
  destruct (proj1 (executeImagePipeline_missing_model analyze invoke now engine_quiet
                     empty_registry () state0 Hquiet) eq_refl)
    as (res & s' & Hrun & _ & Herr & _).
  exists res, s'. split; [exact Hrun|exact Herr].
Defined.


Lemma ip_execute_calls_no_fallback_witness :
  exists r s' evs,
    ip_execute analyze ip_invoke now registry_chain () (Some (Quiet 0)) ip_state0
      = (r, s') /\
    ip_trace s' = ip_trace ip_state0 ++ evs.
Proof.
  eexists _, _.
  destruct (ip_execute_calls_no_fallback analyze ip_invoke now registry_chain ()
              (Some (Quiet 0)) ip_state0 _ _ eq_refl) as (evs & Htr & _).
  exists evs. split; [reflexivity|exact Htr].
Defined.


Lemma config_keys_roundtrip_witness :
  "k1" <> "" /\ "k2" <> "" /\
  Config.validateConfig (Config.set_reasoning "k2" (Config.set_vision "k1" ∅)) =
    {| Config.valid := true; Config.issues := [] |}.
Proof.
  split; [discriminate|]. split; [discriminate|].
  apply (proj2 (proj2 (proj2 (proj2 (config_keys_roundtrip ∅ "k1" "k2")))));
    discriminate.
Defined.

Lemma executeImagePipeline_duration_witness :
  exists res s',
    executeImagePipeline analyze invoke now engine_quiet registry_step2_fails () state0
      = (inr res, s') /\
    now (world s') <> 0 /\
    forall clock, duration res clock = now (world s') - now (world state0).
Proof.
  eexists _, _. split; [reflexivity|]. split; [discriminate|].
  apply (executeImagePipeline_duration analyze invoke now engine_quiet
           registry_step2_fails () state0); [reflexivity|discriminate].
Defined.

Lemma runAnalysis_guard_witness :
  isProcessing app0 = false /\
  isProcessing
    (runAnalysis analyze invoke now ui truthy (Quiet 5) registry_step2_fails ()
       app0 engine_quiet state0).1.1 = false.
Proof.
  split; [reflexivity|].
  apply (proj2 (runAnalysis_guard analyze invoke now ui truthy (Quiet 5)
                  registry_step2_fails () app0 engine_quiet state0)).
  reflexivity.
Defined.

Lemma runAnalysis_observers_witness :
  (Quiet 5 ∉ progressCallbacks engine_quiet) /\
  let out := runAnalysis analyze invoke now ui truthy (Quiet 5) registry_step2_fails ()
               app0 engine_quiet state0 in
  out.1.2 = engine_quiet \/
  progressCallbacks out.1.2 = progressCallbacks engine_quiet ++ [Quiet 5].
Proof.
  assert (Quiet 5 ∉ progressCallbacks engine_quiet) as Hfresh.
  { intros Hin. apply list_elem_of_singleton in Hin. discriminate Hin. }
  split; [exact Hfresh|].
  destruct (runAnalysis_observers analyze invoke now ui truthy (Quiet 5)
              registry_step2_fails () app0 engine_quiet state0 Hfresh eq_refl)
    as [[Heng _]|[Hleak _]].
  - left. exact Heng.
  - right. exact Hleak.
Defined.

End Examples2.
